(** * LP-profit-prediction: the pool filter, the pool fetcher and the cache

    A shallow embedding of [src/app.js].  JavaScript numbers are IEEE 754
    binary64 values, so they are Rocq's primitive [float]s; the values a
    pool record carries are JSON scalars; functions that can raise return a
    [result]; the file system, the environment and the identifier set are
    finite maps and sets.  Console output is not part of the model. *)

From Stdlib Require Import Ascii String ZArith Bool Floats.
From stdpp Require Import base option list strings gmap pretty.

Set Warnings "-inexact-float,-abstract-large-number".

Open Scope string_scope.

(** ** Values *)

(** A JSON scalar, or [undefined] for a property that is absent. *)
Inductive scalar :=
| JUndefined
| JNull
| JBool (b : bool)
| JNumber (x : float)
| JString (s : string).

(** The token selection of the pools query ([graphqlQuery.js]). *)
Record token := mkToken {
  token_id : string;
  symbol : string;
  name : string;
  decimals : scalar
}.

(** One pool of a page, with the fields the query selects.  The schema of
    the subgraph makes [id] a string and the other fields scalars. *)
Record pool := mkPool {
  id : string;
  token0 : token;
  token1 : token;
  feeTier : scalar;
  liquidity : scalar;
  volumeUSD : scalar;
  txCount : scalar;
  totalValueLockedUSD : scalar
}.

(** An element of a page or of the cached array: [null] or a pool object. *)
Inductive entry :=
| ENull
| EPool (p : pool).

(** What the cache loader hands back: [null], or the parsed array.  The
    cache file is written by [saveToCache] only, so other JSON documents
    are left out. *)
Inductive cached :=
| CNull
| CArray (items : list entry).

(** ** Exceptions *)

Inductive exn :=
| ReferenceError (ident : string)
| TypeError (msg : string)
| SyntaxError (msg : string)
| RangeError (msg : string)
| Error (msg : string)
| SystemError (code : string).

Inductive result (A : Type) :=
| Return (a : A)
| Throw (e : exn).

Arguments Return {A} a.
Arguments Throw {A} e.

#[global] Instance result_ret : MRet result := @Return.

#[global] Instance result_bind : MBind result := fun A B k r =>
  match r with
  | Return a => k a
  | Throw e => Throw e
  end.

Definition try_catch {A} (body : result A) (handler : exn -> result A) : result A :=
  match body with
  | Return a => Return a
  | Throw e => handler e
  end.

(** ** Built-ins that are not modelled

    The decimal conversions, two [Math] functions and the JSON codec are
    the engine's.  Each is a class field, and every statement below holds
    for all instances. *)

(** [StringToNumber] of ECMA-262, on a string that is not empty. *)
Class NumberParser := {
  StringToNumber : string -> float
}.

Class MathLib := {
  Math_log10 : float -> float;
  Math_pow : float -> float -> float;
  (** [Number.prototype.toFixed]; a digit count outside 0..100 raises *)
  Number_toFixed : float -> float -> result string
}.

Class JsonCodec := {
  (** [JSON.stringify(pools, null, 2)] *)
  JSON_stringify : list entry -> string;
  JSON_parse : string -> result cached
}.

(** ** Thresholds of [app.js] (lines 24-30) *)

Definition liquidityThreshold : float := 50000%float.
Definition volumeThreshold : float := 1000%float.
Definition aprPercentageThreshold : float := 0.05%float.
Definition aprMaxValue : float := 200%float.
Definition LIMIT : nat := 100000.

(** ** Coercions *)

(** [ToBoolean]: the falsy scalars are [undefined], [null], [false],
    [+0], [-0], [NaN] and the empty string. *)
Definition ToBoolean (v : scalar) : bool :=
  match v with
  | JUndefined | JNull => false
  | JBool b => b
  | JNumber x => negb (PrimFloat.is_zero x || is_nan x)
  | JString s => negb (String.eqb s "")
  end.

(** Truncation of a binary64 value towards zero. *)
Definition SFtrunc (x : spec_float) : Z :=
  match x with
  | S754_finite sg m e =>
      let a := match e with
               | Z0 => Zpos m
               | Zpos _ => Z.shiftl (Zpos m) e
               | Zneg k => Z.shiftr (Zpos m) (Zpos k)
               end in
      if sg then Z.opp a else a
  | _ => 0%Z
  end.

(** [ToInt32], the coercion [x | 0] applies: truncate, wrap modulo 2^32,
    read as a signed word; [NaN] and the infinities give 0. *)
Definition ToInt32 (x : float) : Z :=
  let z := (SFtrunc (Prim2SF x) mod 2 ^ 32)%Z in
  if (2 ^ 31 <=? z)%Z then (z - 2 ^ 32)%Z else z.

(** The number that holds an integer (exact below 2^53). *)
Definition Z2float (z : Z) : float :=
  if (z <? 0)%Z then (- of_uint63 (Uint63Axioms.of_Z (- z)))%float
  else of_uint63 (Uint63Axioms.of_Z z).

Section Numbers.
Context `{!NumberParser}.

Definition ToNumber (v : scalar) : float :=
  match v with
  | JUndefined => nan
  | JNull => zero
  | JBool b => if b then one else zero
  | JNumber x => x
  | JString s => if String.eqb s "" then zero else StringToNumber s
  end.

(** The global [isNaN] coerces its argument. *)
Definition isNaN (v : scalar) : bool := is_nan (ToNumber v).

(** [v >= c] and [v > c] against a number [c]: the comparison is numeric as
    soon as one side is a number, and false when the other side is [NaN]. *)
Definition js_ge (v : scalar) (c : float) : bool := (c <=? ToNumber v)%float.
Definition js_gt (v : scalar) (c : float) : bool := (c <? ToNumber v)%float.

(** ** formatBigNumber (app.js, lines 34-48) *)

Definition suffixes : list string := [""; "K"; "M"; "B"; "T"; "P"; "E"].

(** [suffixes[tier]]: [undefined] outside the array. *)
Definition suffix_at (tier : Z) : option string :=
  if (tier <? 0)%Z then None else suffixes !! Z.to_nat tier.

(** [number.toFixed(decimals)] on the argument as it was passed: only a
    number has the method. *)
Definition call_toFixed `{!MathLib} (number : scalar) (decimals : float)
  : result string :=
  match number with
  | JNumber x => Number_toFixed x decimals
  | JUndefined | JNull =>
      Throw (TypeError "Cannot read properties of undefined (reading 'toFixed')")
  | JBool _ | JString _ => Throw (TypeError "number.toFixed is not a function")
  end.

(** [decimals_arg = None] is a call without the second argument, which
    then defaults to 2. *)
Definition formatBigNumber `{!MathLib} (number : scalar) (decimals_arg : option float)
  : result string :=
  let decimals := default 2%float decimals_arg in
  if negb (ToBoolean number) || isNaN number then Return "N/A"
  else
    let tier := ToInt32 (Math_log10 (abs (ToNumber number)) / 3)%float in
    if (tier =? 0)%Z then call_toFixed number decimals
    else
      let suffix := suffix_at tier in
      let scale := Math_pow 10%float (Z2float (tier * 3)) in
      let scaledNumber := (ToNumber number / scale)%float in
      fixed ← Number_toFixed scaledNumber decimals;
      Return (fixed ++ default "undefined" suffix).

(** ** The APR estimate and the significance filter *)

(** Modelled from the spec: [calculateAPR] of [aprCalculator.js], which
    [app.js] imports and which is not among the sources.  The fee tier is
    turned into a rate (over 1,000,000), multiplied by the 24h volume (the
    daily fees), divided by the liquidity (the daily yield), and multiplied
    by 365 and by 100; [/] and [*] coerce their operands to numbers. *)
Definition calculateAPR (fee volume liq : scalar) : float :=
  let feeRate := (ToNumber fee / 1000000)%float in
  let dailyFees := (feeRate * ToNumber volume)%float in
  let dailyYield := (dailyFees / ToNumber liq)%float in
  (dailyYield * 365 * 100)%float.

(** [isPoolSignificant] (app.js, lines 59-86).  Reading a property of
    [null] raises; on an object every read succeeds. *)
Definition isPoolSignificant (e : entry) : result bool :=
  match e with
  | ENull =>
      Throw (TypeError "Cannot read properties of null (reading 'totalValueLockedUSD')")
  | EPool pool =>
      let totalValueLockedUSD := totalValueLockedUSD pool in
      let dailyVolumeUSD := volumeUSD pool in
      let liquidity :=
        if js_gt (liquidity pool) 0 then liquidity pool else JNumber 1 in
      let apr := calculateAPR (feeTier pool) dailyVolumeUSD liquidity in
      if ToBoolean dailyVolumeUSD
         && negb (isNaN dailyVolumeUSD)
         && js_ge totalValueLockedUSD liquidityThreshold
         && js_ge dailyVolumeUSD volumeThreshold
         && (aprPercentageThreshold <=? apr)%float
         && (apr <? aprMaxValue)%float
         && negb (apr =? infinity)%float
      then Return true
      else Return false
  end.

End Numbers.

(** ** Start-up check of the environment (app.js, lines 13-18) *)

Definition req_env : list string :=
  ["UNISWAP_V3_SUBGRAPH_URL"; "COINGECKO_API_URL"; "CACHE_FILENAME"].

(** What [for (k in array)] enumerates: the indices, as strings. *)
Definition array_keys {A} (l : list A) : list string :=
  (fun i : nat => pretty i) <$> seq 0 (length l).

(** [process.env[k]] is a string or [undefined]; the empty string is falsy. *)
Definition env_truthy (process_env : gmap string string) (k : string) : bool :=
  match process_env !! k with
  | Some v => negb (String.eqb v "")
  | None => false
  end.

(** The loop body, run for each enumerated key. *)
Fixpoint check_each (process_env : gmap string string) (keys : list string)
  : result unit :=
  match keys with
  | [] => Return ()
  | env :: rest =>
      if negb (env_truthy process_env env)
      then Throw (Error ("Missing required environment variable: " ++ env))
      else check_each process_env rest
  end.

(** The loop variable [env] is declared nowhere.  In module code, which is
    strict, the first assignment to it raises; in sloppy code it would
    create a global. *)
Inductive mode := Strict | Sloppy.

(** [app.js] opens with [import] declarations: it is module code. *)
Definition app_mode : mode := Strict.

Definition startup_check_in (m : mode) (process_env : gmap string string)
  : result unit :=
  match array_keys req_env with
  | [] => Return ()
  | keys =>
      match m with
      | Strict => Throw (ReferenceError "env")
      | Sloppy => check_each process_env keys
      end
  end.

Definition startup_check : gmap string string -> result unit :=
  startup_check_in app_mode.

(** ** The pool fetcher (app.js, lines 93-143) *)

(** The values [getPoolsQuery] interpolates into the query text. *)
Record query := mkQuery {
  first : nat;
  id_gt : string;
  volumeUSD_gte : float;
  totalValueLockedUSD_gte : float
}.

Definition getPoolsQuery (batchSize : nat) (lastPoolId : string)
    (liquidityThreshold volumeThreshold : float) : query :=
  {| first := batchSize;
     id_gt := lastPoolId;
     volumeUSD_gte := volumeThreshold;
     totalValueLockedUSD_gte := liquidityThreshold |}.

(** The outcome of one [await request(...)]: the promise rejects, or it
    resolves with [data]; [pools = None] stands for a [data] whose [pools]
    cannot be iterated. *)
Inductive response :=
| Rejects (e : exn)
| Resolves (pools : option (list entry)).

(** The service answers the [n]-th request ([n] counted from 0) to a query. *)
Definition service := nat -> query -> response.

(** The functions of one argument that a scope binds by name. *)
Abbreviation scope := (gmap string (entry -> result bool)).

(** Calling an identifier: one the scope does not bind raises. *)
Definition call_ident (sc : scope) (ident : string) (arg : entry) : result bool :=
  match sc !! ident with
  | Some f => f arg
  | None => Throw (ReferenceError ident)
  end.

(** The top level of [app.js] defines [isPoolSignificant]; no import and no
    declaration binds [isSignificantPool]. *)
Definition module_scope `{!NumberParser} : scope :=
  {[ "isPoolSignificant" := isPoolSignificant ]}.

(** The locals of [fetchAllPools]; [requests] counts the requests sent. *)
Record fetch_state := mkFetch {
  allPools : list entry;
  lastPoolId : string;
  fetchMore : bool;
  significantPoolsSet : gset string;
  significantPools : list entry;
  requests : nat
}.

Definition fetch_init : fetch_state :=
  {| allPools := []; lastPoolId := ""; fetchMore := true;
     significantPoolsSet := ∅; significantPools := []; requests := 0 |}.

Definition batchSize : nat := 50.

(** [allPools.push(pool)] *)
Definition push_all (pool : entry) (st : fetch_state) : fetch_state :=
  mkFetch (allPools st ++ [pool]) (lastPoolId st) (fetchMore st)
          (significantPoolsSet st) (significantPools st) (requests st).

(** [lastPoolId = pool.id] *)
Definition set_last (i : string) (st : fetch_state) : fetch_state :=
  mkFetch (allPools st) i (fetchMore st)
          (significantPoolsSet st) (significantPools st) (requests st).

(** [significantPoolsSet.add(pool.id); significantPools.push(pool)] *)
Definition keep (i : string) (pool : entry) (st : fetch_state) : fetch_state :=
  mkFetch (allPools st) (lastPoolId st) (fetchMore st)
          ({[ i ]} ∪ significantPoolsSet st) (significantPools st ++ [pool])
          (requests st).

(** [fetchMore = false] *)
Definition stop (st : fetch_state) : fetch_state :=
  mkFetch (allPools st) (lastPoolId st) false
          (significantPoolsSet st) (significantPools st) (requests st).

Definition sent (st : fetch_state) : fetch_state :=
  mkFetch (allPools st) (lastPoolId st) (fetchMore st)
          (significantPoolsSet st) (significantPools st) (S (requests st)).

(** Step 3, [for (const pool of data.pools)]: the state when the loop is
    left, and whether it was left by an exception. *)
Fixpoint process_page (sc : scope) (limit : nat) (pools : list entry)
    (st : fetch_state) : fetch_state * result unit :=
  match pools with
  | [] => (st, Return ())
  | pool :: rest =>
      let st := push_all pool st in
      match pool with
      | ENull => (st, Throw (TypeError "Cannot read properties of null (reading 'id')"))
      | EPool p =>
          let st := set_last (id p) st in
          match call_ident sc "isSignificantPool" pool with
          | Throw e => (st, Throw e)
          | Return significant =>
              let st :=
                if significant && negb (bool_decide (id p ∈ significantPoolsSet st))
                then keep (id p) pool st
                else st in
              if (limit <=? length (allPools st))%nat
              then (stop st, Return ())
              else process_page sc limit rest st
          end
      end
  end.

(** The [while] loop inside the [try] block; [None] when the fuel runs out
    first.  The two [await]s only order the steps; [delay] changes nothing. *)
Fixpoint pagination_loop (sc : scope) (request : service) (limit fuel : nat)
    (st : fetch_state) : option (fetch_state * result unit) :=
  if fetchMore st && (length (allPools st) <? limit)%nat then
    match fuel with
    | O => None
    | S fuel' =>
        let q := getPoolsQuery batchSize (lastPoolId st)
                               liquidityThreshold volumeThreshold in
        match request (requests st) q with
        | Rejects e => Some (sent st, Throw e)
        | Resolves None => Some (sent st, Throw (TypeError "data.pools is not iterable"))
        | Resolves (Some pools) =>
            match process_page sc limit pools (sent st) with
            | (st', Throw e) => Some (st', Throw e)
            | (st', Return _) =>
                let st' := if (length pools <? batchSize)%nat then stop st' else st' in
                pagination_loop sc request limit fuel' st'
            end
        end
    end
  else Some (st, Return ()).

(** [fetchAllPools] in a scope: the handler of the [try] only logs, and the
    function returns [significantPools] as the loop left it. *)
Definition fetchAllPools_in (sc : scope) (request : service) (limit fuel : nat)
  : option (result (list entry)) :=
  match pagination_loop sc request limit fuel fetch_init with
  | None => None
  | Some (st, outcome) =>
      Some (_ ← try_catch outcome (fun _ => Return ());
            Return (significantPools st))
  end.

Definition fetchAllPools `{!NumberParser}
  : service -> nat -> nat -> option (result (list entry)) :=
  fetchAllPools_in module_scope.

(** ** The cache (app.js, lines 146-169) *)

(** What the file system holds for a path.  A path that is absent from
    the map names no file and a write creates it.  [ReadOnly] is a file
    that can be read and refuses a write (its permissions, a read-only
    volume); [Inaccessible] exists and can be neither read nor written (a
    directory, a file without permission); [Uncreatable] names no file
    either, and a write cannot create it, because its directory is missing
    ([ENOENT]) or accepts no new file ([EACCES]). *)
Inductive node :=
| File (text : string)
| Inaccessible (code : string)
| ReadOnly (text : string) (code : string)
| Uncreatable (code : string).

Definition existsSync (fs : gmap string node) (p : string) : bool :=
  match fs !! p with
  | Some (File _) | Some (ReadOnly _ _) | Some (Inaccessible _) => true
  | Some (Uncreatable _) | None => false
  end.

Definition readFileSync (fs : gmap string node) (p : string) : result string :=
  match fs !! p with
  | Some (File text) | Some (ReadOnly text _) => Return text
  | Some (Inaccessible code) => Throw (SystemError code)
  | Some (Uncreatable _) | None => Throw (SystemError "ENOENT")
  end.

Definition writeFileSync (fs : gmap string node) (p : string) (text : string)
  : gmap string node * result unit :=
  match fs !! p with
  | Some (File _) | None => (<[ p := File text ]> fs, Return ())
  | Some (Inaccessible code) | Some (ReadOnly _ code) | Some (Uncreatable code) =>
      (fs, Throw (SystemError code))
  end.

Section Cache.
Context `{!JsonCodec}.

(** The path the module computes once when it loads. *)
Variable CACHE_FILE : string.

Definition saveToCache (fs : gmap string node) (significantPools : list entry)
  : gmap string node * result unit :=
  let '(fs', written) :=
    writeFileSync fs CACHE_FILE (JSON_stringify significantPools) in
  (fs', try_catch written (fun _ => Return ())).

Definition loadFromCache (fs : gmap string node) : result cached :=
  try_catch
    (if existsSync fs CACHE_FILE then
       data ← readFileSync fs CACHE_FILE;
       JSON_parse data
     else Return CNull)
    (fun _ => Return CNull).

End Cache.

(** ** The JSON codec of the engine

    The class [JsonCodec] leaves the codec open.  For the round trip
    through the cache file it is written out here, on the characters of
    the text: [JSON.stringify(value, null, 2)] and [JSON.parse] of
    ECMA-262.  A string is held as the bytes of its UTF-8 form, which is
    also what the cache file holds.  Two things stay the engine's: the
    decimal form of a number ([Number::toString] and [StringToNumber])
    and the wording of a [SyntaxError]. *)

(** [Number::toString] with radix 10. *)
Class NumberPrinter := {
  Number_toString : float -> string
}.

#[warnings="-register-all"]
Inductive json :=
| JsonNull
| JsonBool (b : bool)
| JsonNumber (x : float)
| JsonString (s : string)
| JsonArray (items : list json)
| JsonObject (members : list (string * json)).

Abbreviation chars := list_ascii_of_string.

Definition code (c : ascii) : N := N_of_ascii c.

Definition quotation_mark : ascii := "034"%char.
Definition reverse_solidus : ascii := "092"%char.
Definition line_feed : ascii := "010"%char.

(** *** Serialization *)

(** A property whose value is [undefined] is left out of its object. *)
Definition json_of_scalar (x : scalar) : option json :=
  match x with
  | JUndefined => None
  | JNull => Some JsonNull
  | JBool b => Some (JsonBool b)
  | JNumber x => Some (JsonNumber x)
  | JString s => Some (JsonString s)
  end.

Definition property (key : string) (x : scalar) : list (string * json) :=
  match json_of_scalar x with
  | Some v => [(key, v)]
  | None => []
  end.

(** The properties come in the order of the selection of the query, which
    is the order of the response. *)
Definition json_of_token (t : token) : json :=
  JsonObject ([("symbol", JsonString (symbol t));
               ("id", JsonString (token_id t));
               ("name", JsonString (name t))]
              ++ property "decimals" (decimals t))%list.

Definition json_of_pool (p : pool) : json :=
  JsonObject ([("id", JsonString (id p));
               ("token0", json_of_token (token0 p));
               ("token1", json_of_token (token1 p))]
              ++ property "feeTier" (feeTier p)
              ++ property "liquidity" (liquidity p)
              ++ property "volumeUSD" (volumeUSD p)
              ++ property "txCount" (txCount p)
              ++ property "totalValueLockedUSD" (totalValueLockedUSD p))%list.

Definition json_of_entry (e : entry) : json :=
  match e with
  | ENull => JsonNull
  | EPool p => json_of_pool p
  end.

Definition hex_digit (d : N) : ascii :=
  ascii_of_N (if (d <? 10)%N then 48 + d else 87 + d).

(** [QuoteJSONString]: the two-character escapes, [\u00xx] for the other
    control characters, and every other character as it is. *)
Definition quote_char (c : ascii) : list ascii :=
  let n := code c in
  if (n =? 8)%N then chars "\b"
  else if (n =? 9)%N then chars "\t"
  else if (n =? 10)%N then chars "\n"
  else if (n =? 12)%N then chars "\f"
  else if (n =? 13)%N then chars "\r"
  else if (n =? 34)%N then [reverse_solidus; quotation_mark]
  else if (n =? 92)%N then [reverse_solidus; reverse_solidus]
  else if (n <? 32)%N
       then (chars "\u00" ++ [hex_digit (n / 16); hex_digit (n mod 16)])%list
  else [c].

Definition QuoteJSONString (s : string) : list ascii :=
  (quotation_mark :: flat_map quote_char (chars s) ++ [quotation_mark])%list.

(** The third argument of [JSON.stringify], 2, as a gap. *)
Definition gap : list ascii := chars "  ".

(** [Array.prototype.join] on lists. *)
Fixpoint join_more {A} (separator : list A) (parts : list (list A)) : list A :=
  match parts with
  | [] => []
  | part :: rest => (separator ++ part ++ join_more separator rest)%list
  end.

Definition join {A} (separator : list A) (parts : list (list A)) : list A :=
  match parts with
  | [] => []
  | part :: rest => (part ++ join_more separator rest)%list
  end.

(** [SerializeJSONArray] and [SerializeJSONObject] once the parts are
    serialized: an empty container has no line break. *)
Definition wrap (opening closing : ascii) (indent : list ascii)
    (parts : list (list ascii)) : list ascii :=
  match parts with
  | [] => [opening; closing]
  | _ => ([opening; line_feed] ++ (indent ++ gap)
          ++ join (","%char :: line_feed :: indent ++ gap) parts
          ++ [line_feed] ++ indent ++ [closing])%list
  end.

Section Serialization.
Context `{!NumberPrinter}.

(** [SerializeJSONProperty]: a number that is not finite is written as
    [null]. *)
Fixpoint serialize (indent : list ascii) (v : json) : list ascii :=
  match v with
  | JsonNull => chars "null"
  | JsonBool true => chars "true"
  | JsonBool false => chars "false"
  | JsonNumber x => if is_finite x then chars (Number_toString x) else chars "null"
  | JsonString s => QuoteJSONString s
  | JsonArray items =>
      wrap "[" "]" indent (map (serialize (indent ++ gap)%list) items)
  | JsonObject members =>
      wrap "{" "}" indent
        (map (fun m => let '(key, value) := m in
                       (QuoteJSONString key ++ chars ": "
                        ++ serialize (indent ++ gap) value)%list)
             members)
  end.

Definition stringify (pools : list entry) : string :=
  string_of_list_ascii (serialize [] (JsonArray (map json_of_entry pools))).

End Serialization.

(** *** Reading: the lexemes *)

Inductive lexeme :=
| TLBracket
| TRBracket
| TLBrace
| TRBrace
| TComma
| TColon
| TScalar (v : json).

(** Where the reader is in the text; [seen] holds the characters of the
    current word, number or string, the last one first. *)
Inductive lexer :=
| Idle
| InWord (seen : list ascii)
| InNumber (seen : list ascii)
| InString (seen : list ascii)
| InEscape (seen : list ascii)
| InHex (seen : list ascii) (value : N) (more : nat).

(** One character is read: lexemes are complete, or the text is not JSON,
    or it holds a string the model has no value for (an escape for half
    of a surrogate pair). *)
Inductive stepped :=
| Go (complete : list lexeme) (next : lexer)
| Bad
| Out.

Definition is_ws (c : ascii) : bool :=
  (code c =? 32)%N || (code c =? 9)%N || (code c =? 10)%N || (code c =? 13)%N.

Definition is_digit (c : ascii) : bool :=
  (48 <=? code c)%N && (code c <=? 57)%N.

Definition is_lower (c : ascii) : bool :=
  (97 <=? code c)%N && (code c <=? 122)%N.

Definition is_exponent (c : ascii) : bool :=
  (code c =? 101)%N || (code c =? 69)%N.

Definition is_sign (c : ascii) : bool :=
  (code c =? 43)%N || (code c =? 45)%N.

(** The characters a number is made of. *)
Definition number_char (c : ascii) : bool :=
  is_digit c || is_sign c || (code c =? 46)%N || is_exponent c.

(** The grammar of a JSON number, as an automaton: an optional minus
    sign; then 0, or a digit from 1 to 9 and any digits; then, optionally,
    a point and one digit or more; then, optionally, e or E, an optional
    sign and one digit or more. *)
Inductive number_state :=
| NStart | NMinus | NZero | NInt | NPoint | NFraction | NE | NESign | NExponent.

Definition number_step (q : number_state) (c : ascii) : option number_state :=
  match q with
  | NStart =>
      if (code c =? 45)%N then Some NMinus
      else if (code c =? 48)%N then Some NZero
      else if is_digit c then Some NInt else None
  | NMinus =>
      if (code c =? 48)%N then Some NZero
      else if is_digit c then Some NInt else None
  | NZero =>
      if (code c =? 46)%N then Some NPoint
      else if is_exponent c then Some NE else None
  | NInt =>
      if is_digit c then Some NInt
      else if (code c =? 46)%N then Some NPoint
      else if is_exponent c then Some NE else None
  | NPoint => if is_digit c then Some NFraction else None
  | NFraction =>
      if is_digit c then Some NFraction
      else if is_exponent c then Some NE else None
  | NE =>
      if is_sign c then Some NESign
      else if is_digit c then Some NExponent else None
  | NESign => if is_digit c then Some NExponent else None
  | NExponent => if is_digit c then Some NExponent else None
  end.

Definition number_accepts (q : number_state) : bool :=
  match q with
  | NZero | NInt | NFraction | NExponent => true
  | _ => false
  end.

Fixpoint number_run (q : number_state) (l : list ascii) : bool :=
  match l with
  | [] => number_accepts q
  | c :: rest =>
      match number_step q c with
      | Some q' => number_run q' rest
      | None => false
      end
  end.

Definition json_number (l : list ascii) : bool := number_run NStart l.

Definition hex_value (c : ascii) : option N :=
  let n := code c in
  if is_digit c then Some (n - 48)%N
  else if (97 <=? n)%N && (n <=? 102)%N then Some (n - 87)%N
  else if (65 <=? n)%N && (n <=? 70)%N then Some (n - 55)%N
  else None.

(** The UTF-8 bytes of a code unit that is not half of a pair. *)
Definition utf8 (u : N) : list ascii :=
  if (u <? 128)%N then [ascii_of_N u]
  else if (u <? 2048)%N
       then [ascii_of_N (192 + u / 64); ascii_of_N (128 + u mod 64)]
  else [ascii_of_N (224 + u / 4096); ascii_of_N (128 + (u / 64) mod 64);
        ascii_of_N (128 + u mod 64)].

Definition is_surrogate (u : N) : bool := (55296 <=? u)%N && (u <=? 57343)%N.

Definition text (seen : list ascii) : string := string_of_list_ascii (rev seen).

Definition word_lexeme (seen : list ascii) : option lexeme :=
  if String.eqb (text seen) "null" then Some (TScalar JsonNull)
  else if String.eqb (text seen) "true" then Some (TScalar (JsonBool true))
  else if String.eqb (text seen) "false" then Some (TScalar (JsonBool false))
  else None.

Section Reading.
Context `{!NumberParser}.

Definition number_lexeme (seen : list ascii) : option lexeme :=
  if json_number (rev seen)
  then Some (TScalar (JsonNumber (StringToNumber (text seen))))
  else None.

(** Between two lexemes. *)
Definition idle (c : ascii) : stepped :=
  if is_ws c then Go [] Idle
  else if (code c =? 91)%N then Go [TLBracket] Idle
  else if (code c =? 93)%N then Go [TRBracket] Idle
  else if (code c =? 123)%N then Go [TLBrace] Idle
  else if (code c =? 125)%N then Go [TRBrace] Idle
  else if (code c =? 44)%N then Go [TComma] Idle
  else if (code c =? 58)%N then Go [TColon] Idle
  else if (code c =? 34)%N then Go [] (InString [])
  else if (code c =? 45)%N || is_digit c then Go [] (InNumber [c])
  else if is_lower c then Go [] (InWord [c])
  else Bad.

(** A word or a number ends at the first character that cannot go on with
    it; that character is then read between two lexemes. *)
Definition ended (t : option lexeme) (c : ascii) : stepped :=
  match t with
  | None => Bad
  | Some t =>
      match idle c with
      | Go complete next => Go (t :: complete) next
      | Bad => Bad
      | Out => Out
      end
  end.

Definition escaped (seen : list ascii) (c : ascii) : stepped :=
  let n := code c in
  if (n =? 34)%N || (n =? 92)%N || (n =? 47)%N then Go [] (InString (c :: seen))
  else if (n =? 98)%N then Go [] (InString ("008"%char :: seen))
  else if (n =? 102)%N then Go [] (InString ("012"%char :: seen))
  else if (n =? 110)%N then Go [] (InString ("010"%char :: seen))
  else if (n =? 114)%N then Go [] (InString ("013"%char :: seen))
  else if (n =? 116)%N then Go [] (InString ("009"%char :: seen))
  else if (n =? 117)%N then Go [] (InHex seen 0 3)
  else Bad.

Definition lex_step (st : lexer) (c : ascii) : stepped :=
  match st with
  | Idle => idle c
  | InWord seen =>
      if is_lower c then Go [] (InWord (c :: seen)) else ended (word_lexeme seen) c
  | InNumber seen =>
      if number_char c then Go [] (InNumber (c :: seen))
      else ended (number_lexeme seen) c
  | InString seen =>
      if (code c =? 34)%N then Go [TScalar (JsonString (text seen))] Idle
      else if (code c =? 92)%N then Go [] (InEscape seen)
      else if (code c <? 32)%N then Bad
      else Go [] (InString (c :: seen))
  | InEscape seen => escaped seen c
  | InHex seen value more =>
      match hex_value c with
      | None => Bad
      | Some d =>
          let u := (value * 16 + d)%N in
          match more with
          | S more' => Go [] (InHex seen u more')
          | O => if is_surrogate u then Out
                 else Go [] (InString (rev (utf8 u) ++ seen)%list)
          end
      end
  end.

Inductive lexed :=
| Lexemes (ts : list lexeme)
| BadSyntax
| Beyond.

Definition push (t : lexeme) (l : lexed) : lexed :=
  match l with
  | Lexemes ts => Lexemes (t :: ts)
  | BadSyntax => BadSyntax
  | Beyond => Beyond
  end.

Definition emit (complete : list lexeme) (l : lexed) : lexed :=
  fold_right push l complete.

(** The end of the text. *)
Definition lex_end (st : lexer) : lexed :=
  match st with
  | Idle => Lexemes []
  | InWord seen =>
      match word_lexeme seen with Some t => Lexemes [t] | None => BadSyntax end
  | InNumber seen =>
      match number_lexeme seen with Some t => Lexemes [t] | None => BadSyntax end
  | _ => BadSyntax
  end.

Fixpoint lex_from (st : lexer) (s : list ascii) : lexed :=
  match s with
  | [] => lex_end st
  | c :: rest =>
      match lex_step st c with
      | Go complete next => emit complete (lex_from next rest)
      | Bad => BadSyntax
      | Out => Beyond
      end
  end.

End Reading.

(** *** Reading: the value *)

(** A container that is being read: the items of an array so far, or the
    members of an object so far and the key whose value is being read; the
    last one first. *)
Inductive frame :=
| FArray (items : list json)
| FObject (members : list (string * json)) (key : string).

Inductive parser :=
| Value (stack : list frame)
| FirstItem (stack : list frame)
| MoreItems (items : list json) (stack : list frame)
| FirstKey (stack : list frame)
| NextKey (members : list (string * json)) (stack : list frame)
| Colon (members : list (string * json)) (key : string) (stack : list frame)
| MoreMembers (members : list (string * json)) (stack : list frame)
| Finished (v : json).

(** A value is complete: it goes into the container on top. *)
Definition feed (v : json) (stack : list frame) : parser :=
  match stack with
  | [] => Finished v
  | FArray items :: stack' => MoreItems (v :: items) stack'
  | FObject members key :: stack' => MoreMembers ((key, v) :: members) stack'
  end.

Definition value_at (stack : list frame) (t : lexeme) : option parser :=
  match t with
  | TScalar v => Some (feed v stack)
  | TLBracket => Some (FirstItem stack)
  | TLBrace => Some (FirstKey stack)
  | _ => None
  end.

Definition parse_step (st : parser) (t : lexeme) : option parser :=
  match st with
  | Value stack => value_at stack t
  | FirstItem stack =>
      match t with
      | TRBracket => Some (feed (JsonArray []) stack)
      | _ => value_at (FArray [] :: stack) t
      end
  | MoreItems items stack =>
      match t with
      | TComma => Some (Value (FArray items :: stack))
      | TRBracket => Some (feed (JsonArray (rev items)) stack)
      | _ => None
      end
  | FirstKey stack =>
      match t with
      | TRBrace => Some (feed (JsonObject []) stack)
      | TScalar (JsonString key) => Some (Colon [] key stack)
      | _ => None
      end
  | NextKey members stack =>
      match t with
      | TScalar (JsonString key) => Some (Colon members key stack)
      | _ => None
      end
  | Colon members key stack =>
      match t with
      | TColon => Some (Value (FObject members key :: stack))
      | _ => None
      end
  | MoreMembers members stack =>
      match t with
      | TComma => Some (NextKey members stack)
      | TRBrace => Some (feed (JsonObject (rev members)) stack)
      | _ => None
      end
  | Finished _ => None
  end.

Fixpoint parse_from (st : parser) (ts : list lexeme) : option json :=
  match ts with
  | [] => match st with Finished v => Some v | _ => None end
  | t :: rest =>
      match parse_step st t with
      | Some st' => parse_from st' rest
      | None => None
      end
  end.

(** *** Reading: the pools *)

(** The value of a property: of two members with the same key the later
    one counts. *)
Fixpoint member (key : string) (members : list (string * json)) : option json :=
  match members with
  | [] => None
  | (k, v) :: rest =>
      match member key rest with
      | Some later => Some later
      | None => if String.eqb k key then Some v else None
      end
  end.

(** A property that is absent reads as [undefined]. *)
Definition scalar_of_member (m : option json) : option scalar :=
  match m with
  | None => Some JUndefined
  | Some JsonNull => Some JNull
  | Some (JsonBool b) => Some (JBool b)
  | Some (JsonNumber x) => Some (JNumber x)
  | Some (JsonString s) => Some (JString s)
  | Some (JsonArray _) | Some (JsonObject _) => None
  end.

Definition string_of_member (m : option json) : option string :=
  match m with
  | Some (JsonString s) => Some s
  | _ => None
  end.

Definition token_of_member (m : option json) : option token :=
  match m with
  | Some (JsonObject members) =>
      i ← string_of_member (member "id" members);
      s ← string_of_member (member "symbol" members);
      n ← string_of_member (member "name" members);
      d ← scalar_of_member (member "decimals" members);
      Some (mkToken i s n d)
  | _ => None
  end.

Definition pool_of_members (members : list (string * json)) : option pool :=
  i ← string_of_member (member "id" members);
  t0 ← token_of_member (member "token0" members);
  t1 ← token_of_member (member "token1" members);
  fee ← scalar_of_member (member "feeTier" members);
  liq ← scalar_of_member (member "liquidity" members);
  vol ← scalar_of_member (member "volumeUSD" members);
  txs ← scalar_of_member (member "txCount" members);
  tvl ← scalar_of_member (member "totalValueLockedUSD" members);
  Some (mkPool i t0 t1 fee liq vol txs tvl).

(** The values the model holds: [null], and an array of [null]s and of
    objects with the shape of a pool. *)
Definition entry_of_json (v : json) : option entry :=
  match v with
  | JsonNull => Some ENull
  | JsonObject members => EPool <$> pool_of_members members
  | _ => None
  end.

Definition cached_of_json (v : json) : option cached :=
  match v with
  | JsonNull => Some CNull
  | JsonArray items => CArray <$> mapM entry_of_json items
  | _ => None
  end.

Section Engine.
Context `{!NumberParser, !NumberPrinter}.

(** What [JSON.parse] does with a text whose value the model has no
    place for (a number at the top, an array of strings, a string with
    half of a surrogate pair), a value or a [SyntaxError] further on in
    the text: every statement holds whatever it is. *)
Variable beyond : string -> result cached.

Definition parse (data : string) : result cached :=
  match lex_from Idle (chars data) with
  | Lexemes ts =>
      match parse_from (Value []) ts with
      | Some v =>
          match cached_of_json v with
          | Some c => Return c
          | None => beyond data
          end
      | None => Throw (SyntaxError "Unexpected token")
      end
  | BadSyntax => Throw (SyntaxError "Unexpected token")
  | Beyond => beyond data
  end.

Definition engine_codec : JsonCodec := {|
  JSON_stringify := stringify;
  JSON_parse := parse
|}.

End Engine.

(** *** What a round trip keeps *)

Section Survival.
Context `{!NumberParser, !NumberPrinter}.

(** A number after it went through the file: a finite number is what its
    decimal form reads as, any other number is [null]. *)
Definition reread_number (x : float) : json :=
  if is_finite x then JsonNumber (StringToNumber (Number_toString x))
  else JsonNull.

Fixpoint reread (v : json) : json :=
  match v with
  | JsonNumber x => reread_number x
  | JsonArray items => JsonArray (map reread items)
  | JsonObject members =>
      JsonObject (map (fun m => let '(key, value) := m in (key, reread value))
                    members)
  | _ => v
  end.

Definition reread_scalar (x : scalar) : scalar :=
  match x with
  | JNumber x =>
      if is_finite x then JNumber (StringToNumber (Number_toString x)) else JNull
  | _ => x
  end.

Definition reread_token (t : token) : token :=
  mkToken (token_id t) (symbol t) (name t) (reread_scalar (decimals t)).

Definition reread_pool (p : pool) : pool :=
  mkPool (id p) (reread_token (token0 p)) (reread_token (token1 p))
         (reread_scalar (feeTier p)) (reread_scalar (liquidity p))
         (reread_scalar (volumeUSD p)) (reread_scalar (txCount p))
         (reread_scalar (totalValueLockedUSD p)).

Definition reread_entry (e : entry) : entry :=
  match e with
  | ENull => ENull
  | EPool p => EPool (reread_pool p)
  end.

(** The scalars of a pool, for conditions on its numbers. *)
Definition scalars (e : entry) : list scalar :=
  match e with
  | ENull => []
  | EPool p =>
      [decimals (token0 p); decimals (token1 p); feeTier p; liquidity p;
       volumeUSD p; txCount p; totalValueLockedUSD p]
  end.

(** The decimal form of a finite number is a JSON number. *)
Definition printable (x : float) : Prop :=
  is_finite x = true -> json_number (chars (Number_toString x)) = true.

Definition scalar_printable (x : scalar) : Prop :=
  match x with
  | JNumber x => printable x
  | _ => True
  end.

Definition entry_printable (e : entry) : Prop :=
  Forall scalar_printable (scalars e).

(** A number goes through the file unchanged: it is finite and its
    decimal form reads back as the same number (which leaves out [-0],
    written as [0]). *)
Definition number_survives (x : float) : Prop :=
  is_finite x = true /\ StringToNumber (Number_toString x) = x.

Definition scalar_survives (x : scalar) : Prop :=
  match x with
  | JNumber x => number_survives x
  | _ => True
  end.

Definition entry_survives (e : entry) : Prop :=
  Forall scalar_survives (scalars e).

(** The lexemes of the text of a value. *)
Fixpoint lexemes (v : json) : list lexeme :=
  match v with
  | JsonArray items =>
      (TLBracket :: join [TComma] (map lexemes items) ++ [TRBracket])%list
  | JsonObject members =>
      (TLBrace
       :: join [TComma]
            (map (fun m => let '(key, value) := m in
                           TScalar (JsonString key) :: TColon :: lexemes value)
               members)
       ++ [TRBrace])%list
  | _ => [TScalar v]
  end.

Fixpoint numbers (v : json) : list float :=
  match v with
  | JsonNumber x => [x]
  | JsonArray items => flat_map numbers items
  | JsonObject members =>
      flat_map (fun m => let '(_, value) := m in numbers value) members
  | _ => []
  end.

(** What can follow a word or a number. *)
Definition delimited (rest : list ascii) : Prop :=
  match rest with
  | [] => True
  | c :: _ => number_char c = false /\ is_lower c = false
  end.

(** The text [part], wherever a delimiter follows it, is read as the
    lexemes [ts]. *)
Definition lexes (part : list ascii) (ts : list lexeme) : Prop :=
  forall rest, delimited rest ->
    lex_from Idle (part ++ rest) = emit ts (lex_from Idle rest).

End Survival.

(** [Array.prototype.filter] with a callback that may raise. *)
Fixpoint Array_filter (f : entry -> result bool) (l : list entry)
  : result (list entry) :=
  match l with
  | [] => Return []
  | x :: rest =>
      f x ≫= fun b : bool =>
      Array_filter f rest ≫= fun kept =>
      Return (if b then x :: kept else kept)
  end.

(** Step 1 of [fetchPoolsPricesAndAPR] (lines 187-194): the cached pools
    are filtered again; [None] when the function falls back to live data. *)
Definition revalidate (sc : scope) (cachedPools : cached)
  : result (option (list entry)) :=
  match cachedPools with
  | CArray (x :: rest) =>
      significantPools ← Array_filter (call_ident sc "isSignificantPool") (x :: rest);
      Return (Some significantPools)
  | _ => Return None
  end.

(** ** Definitions the statements use *)

(** [NaN] and the two infinities, on the specification side of binary64. *)
Definition nan_or_inf (x : spec_float) : bool :=
  match x with
  | S754_nan | S754_infinity _ => true
  | _ => false
  end.

Definition is_finite_SF (x : spec_float) : bool :=
  match x with
  | S754_finite _ _ _ => true
  | _ => false
  end.

Section Wording.
Context `{!NumberParser}.

(** The liquidity the estimate divides by: 1 unless the pool's is positive. *)
Definition effective_liquidity (p : pool) : scalar :=
  if js_gt (liquidity p) 0 then liquidity p else JNumber 1.

Definition pool_apr (p : pool) : float :=
  calculateAPR (feeTier p) (volumeUSD p) (effective_liquidity p).

(** The decision as the specification words it, one conjunct per bullet. *)
Definition significant_spec (p : pool) : bool :=
  let volume := ToNumber (volumeUSD p) in
  let apr := pool_apr p in
  (is_finite volume && negb (PrimFloat.is_zero volume))
  && (liquidityThreshold <=? ToNumber (totalValueLockedUSD p))%float
  && (volumeThreshold <=? volume)%float
  && ((aprPercentageThreshold <=? apr)%float && (apr <? aprMaxValue)%float)
  && negb (apr =? infinity)%float.

(** The scope the two call sites expect: the filter, under the name
    [isSignificantPool] they call it by. *)
Definition aliased_scope : scope :=
  <[ "isSignificantPool" := isPoolSignificant ]> module_scope.

End Wording.

(** The identifiers of the pools of a list. *)
Definition entry_ids (l : list entry) : list string :=
  omap (fun e => match e with EPool p => Some (id p) | ENull => None end) l.

(** The kept pools carry distinct identifiers, all of them in the set. *)
Definition deduplicated (st : fetch_state) : Prop :=
  NoDup (entry_ids (significantPools st))
  /\ forall i, i ∈ entry_ids (significantPools st) -> i ∈ significantPoolsSet st.

(** ** Data of the examples *)

Definition weth : token := mkToken "0xc02a" "WETH" "Wrapped Ether" (JNumber 18).
Definition usdc : token := mkToken "0xa0b8" "USDC" "USD Coin" (JNumber 6).

Definition sample (i : string) (fee liq volume tvl : float) : pool :=
  mkPool i weth usdc (JNumber fee) (JNumber liq) (JNumber volume)
         (JNumber 120) (JNumber tvl).

(** TVL exactly at the threshold, APR just below 200. *)
Definition pool_a : pool := sample "0xa" 1000000 365001 2000 50000.
(** The same pool one cent below the TVL threshold. *)
Definition pool_a_low : pool := sample "0xa" 1000000 365001 2000 49999.99.
(** The same pool with the liquidity that makes the APR exactly 200. *)
Definition pool_a_200 : pool := sample "0xa" 1000000 365000 2000 50000.
(** Volume below the threshold. *)
Definition pool_b : pool := sample "0xb" 3000 1000000 10 50000.
(** TVL below the threshold. *)
Definition pool_c : pool := sample "0xc" 3000 1000000 2000 10.

(** One page of three pools, served to every request. *)
Definition one_page : service :=
  fun _ _ => Resolves (Some [EPool pool_a; EPool pool_b; EPool pool_c]).

(** A full page that starts with [pool_a], then a page that repeats it. *)
Definition two_pages : service :=
  fun n _ =>
    match n with
    | 0 => Resolves (Some (EPool pool_a :: replicate 49 (EPool pool_b)))
    | _ => Resolves (Some [EPool pool_a])
    end.

(** A full page, then the network fails. *)
Definition page_then_failure : service :=
  fun n _ =>
    match n with
    | 0 => Resolves (Some (EPool pool_a :: replicate 49 (EPool pool_b)))
    | _ => Rejects (Error "socket hang up")
    end.

(** An environment that sets the three required variables. *)
Definition full_env : gmap string string :=
  list_to_map [("UNISWAP_V3_SUBGRAPH_URL", "https://subgraph.example/v3");
               ("COINGECKO_API_URL", "https://prices.example/api");
               ("CACHE_FILENAME", "cache.json")].

Definition nl : string := String "010"%char "".

(** The text of the array that holds one [null], indented by 2. *)
Definition one_null_text : string := "[" ++ nl ++ "  null" ++ nl ++ "]".

(** Instances for closed examples: a parser that reads no string as a
    number, and a codec that knows two documents, the empty array and the
    array that holds one [null]. *)
Definition example_parser : NumberParser :=
  {| StringToNumber := fun _ => nan |}.

Definition example_codec : JsonCodec := {|
  JSON_stringify := fun l =>
    match l with
    | [ENull] => one_null_text
    | _ => "[]"
    end;
  JSON_parse := fun text =>
    if String.eqb text "[]" then Return (CArray [])
    else if String.eqb text one_null_text then Return (CArray [ENull])
    else Throw (SyntaxError "Unexpected token")
|}.

(** A parser and a printer that know the natural numbers below 2^53,
    which are written with all their digits, for closed examples of the
    round trip through the cache. *)
Fixpoint digits_value (acc : N) (l : list ascii) : option N :=
  match l with
  | [] => Some acc
  | c :: rest =>
      if is_digit c then digits_value (acc * 10 + (code c - 48)) rest else None
  end.

Definition natural_parser : NumberParser := {|
  StringToNumber := fun s =>
    match digits_value 0 (chars s) with
    | Some n => PrimFloat.of_uint63 (Uint63Axioms.of_Z (Z.of_N n))
    | None => nan
    end
|}.

Definition natural_of_float (x : float) : option N :=
  match Prim2SF x with
  | S754_zero false => Some 0%N
  | S754_finite false m e =>
      if (0 <=? e)%Z then Some (Npos m * 2 ^ Z.to_N e)%N
      else let d := (2 ^ Z.to_N (- e))%N in
           if (Npos m mod d =? 0)%N then Some (Npos m / d)%N else None
  | _ => None
  end.

Definition natural_printer : NumberPrinter := {|
  Number_toString := fun x =>
    match natural_of_float x with
    | Some n => if (n <? 2 ^ 53)%N then pretty n else "NaN"
    | None => "NaN"
    end
|}.

(** A pool as the subgraph sends it, with decimal strings, a name that
    needs escapes and a token without [decimals]. *)
Definition quoted : token :=
  mkToken "0x6b17" "DAI" (String quotation_mark "Dai" ++ String quotation_mark " \ Stablecoin")
          JUndefined.

Definition pool_e : pool :=
  mkPool "0xe" weth quoted (JString "3000") (JString "365001") (JString "2000.5")
         JNull (JNumber 50000).

(** The codec of the engine with these two, and a list to save: two
    pools and a [null] between them. *)
Definition natural_codec : JsonCodec :=
  @engine_codec natural_parser natural_printer
    (fun _ => Throw (Error "not a list of pools")).

Definition saved_pools : list entry := [EPool pool_a; ENull; EPool pool_e].

(** ** The price lookup (priceFetcher.js) *)

(** [String.prototype.toLowerCase], which is aware of Unicode, and the
    global [parseFloat] are the engine's. *)
Class StringLib := {
  toLowerCase : string -> string;
  parseFloat : scalar -> float
}.

(** The price object the service returns for one address.  A value that is
    no object reads as a quote whose [usd] is [undefined]. *)
Record quote := mkQuote {
  usd : scalar
}.

(** The outcome of one [await axiosInstance.get(url)]: the promise rejects,
    or it resolves with a response whose [data] maps addresses to quotes. *)
Inductive price_response :=
| PriceRejects (e : exn)
| PriceResolves (data : gmap string quote).

(** The price service answers the [n]-th request ([n] counted from 0) to a
    URL. *)
Definition price_service := nat -> string -> price_response.

Module PriceFetcher.
Section PriceFetcher.
Context `{!StringLib}.

(** [process.env.COINGECKO_API_URL] as a template interpolates it. *)
Variable COINGECKO_API_URL : string.

Definition batchSize : nat := 10.

(** [tokenIds.slice(i, i + batchSize).join(',')] *)
Definition batch_at (tokenIds : list string) (i : nat) : string :=
  String.concat "," (take batchSize (drop i tokenIds)).

Definition url_of (batch : string) : string :=
  COINGECKO_API_URL ++ "?contract_addresses=" ++ toLowerCase batch
                    ++ "&vs_currencies=usd".

(** The [for] loop of the [try] block, from index [i] on: the URLs
    requested so far and the outcome; [None] when the fuel runs out first.
    [Object.assign(tokenPrices, data)] lets the keys of [data] win. *)
Fixpoint batch_loop (get : price_service) (tokenIds : list string)
    (fuel i : nat) (requested : list string) (tokenPrices : gmap string quote)
  : option (list string * result (gmap string quote)) :=
  if (i <? length tokenIds)%nat then
    match fuel with
    | O => None
    | S fuel' =>
        let url := url_of (batch_at tokenIds i) in
        match get (length requested) url with
        | PriceRejects e => Some ((requested ++ [url])%list, Throw e)
        | PriceResolves data =>
            batch_loop get tokenIds fuel' (i + batchSize)
                       (requested ++ [url])%list (data ∪ tokenPrices)
        end
    end
  else Some (requested, Return tokenPrices).

(** [fetchTokenPrices] (priceFetcher.js, lines 15-34): the handler logs and
    returns an empty object. *)
Definition fetchTokenPrices (get : price_service) (tokenIds : list string)
    (fuel : nat) : option (list string * result (gmap string quote)) :=
  match batch_loop get tokenIds fuel 0 [] ∅ with
  | None => None
  | Some (requested, outcome) =>
      Some (requested, try_catch outcome (fun _ => Return ∅))
  end.

End PriceFetcher.
End PriceFetcher.

(** ** Definitions the statements on the price lookup use *)

(** The number of batches of ten that [n] addresses make. *)
Definition batch_count (n : nat) : nat := (n + 9) / 10.

(** The URL of the [k]-th batch ([k] counted from 0). *)
Definition nth_url `{!StringLib} (endpoint : string) (tokenIds : list string)
    (k : nat) : string :=
  PriceFetcher.url_of endpoint
    (PriceFetcher.batch_at tokenIds (k * PriceFetcher.batchSize)).

(** ASCII lower-casing, which [toLowerCase] is on ASCII text. *)
Definition ascii_lower (c : ascii) : ascii :=
  let n := nat_of_ascii c in
  if (65 <=? n)%nat && (n <=? 90)%nat then ascii_of_nat (n + 32) else c.

Fixpoint string_lower (s : string) : string :=
  match s with
  | EmptyString => EmptyString
  | String c rest => String (ascii_lower c) (string_lower rest)
  end.

(** An instance for closed examples: it lower-cases ASCII letters and
    parses numbers only. *)
Definition example_strings : StringLib := {|
  toLowerCase := string_lower;
  parseFloat := fun v => match v with JNumber x => x | _ => nan end
|}.

(** Eleven token addresses, and a price service that resolves their two
    batches, the second answer repeating a key of the first. *)
Definition eleven_tokens : list string :=
  ["0xA0"; "0xA1"; "0xA2"; "0xA3"; "0xA4"; "0xA5"; "0xA6"; "0xA7"; "0xA8";
   "0xA9"; "0xAA"].

Definition first_answer : gmap string quote :=
  {[ "0xa0" := mkQuote (JNumber 1); "0xa1" := mkQuote (JNumber 2000) ]}.
Definition second_answer : gmap string quote :=
  {[ "0xa0" := mkQuote (JNumber 3); "0xaa" := mkQuote (JNumber 4) ]}.

Definition two_answers : price_service :=
  fun n _ => match n with 0 => PriceResolves first_answer
                     | _ => PriceResolves second_answer end.

(** A price service that resolves the first request and rejects the rest. *)
Definition answer_then_failure : price_service :=
  fun n _ => match n with 0 => PriceResolves first_answer
                     | _ => PriceRejects (Error "Request failed with status code 429") end.

(** ** Definitions the statements on the fetcher use *)

(** The number of pages of fifty that [limit] pools make. *)
Definition page_count (limit : nat) : nat := (limit + 49) / 50.

(** What [fetchAllPools] keeps track of while it runs: the kept pools are
    some of the fetched entries, in order; each is a pool the filter
    accepted; each fetched entry is on a page the service resolved; and
    the fetched entries are no more than the limit. *)
Definition fetched_well (sc : scope) (request : service) (limit : nat)
    (st : fetch_state) : Prop :=
  sublist (significantPools st) (allPools st)
  /\ Forall (fun e => (exists p, e = EPool p)
                      /\ call_ident sc "isSignificantPool" e = Return true)
            (significantPools st)
  /\ Forall (fun e => exists n q pools,
                        request n q = Resolves (Some pools) /\ e ∈ pools)
            (allPools st)
  /\ length (allPools st) <= limit.

(** ** The orchestrator (app.js, lines 179-276) *)

(** A pool of the report: the pool itself ([...pool]) and what step 7
    adds to it. *)
Record enriched := mkEnriched {
  base : pool;
  token0Price : scalar;
  token1Price : scalar;
  apr : float;
  oneDayVolTVL : float
}.

(** [JSON.stringify(significantPools, null, 2)] on the list of step 7,
    whose entries are enriched pools or [null]. *)
Class ReportCodec := {
  JSON_stringify_report : list (option enriched) -> string
}.

(** What a run leaves behind: the files, whether [fetchAllPools] was
    called, the URLs asked of the price service, and the exception the
    [catch] block logged, if any. *)
Record run := mkRun {
  run_files : gmap string node;
  run_fetched : bool;
  run_price_urls : list string;
  run_caught : option exn
}.

(** [[...new Set(ids)]]: each value once, in the order of first insertion. *)
Fixpoint insertion_order (seen : gset string) (ids : list string) : list string :=
  match ids with
  | [] => []
  | x :: rest =>
      if bool_decide (x ∈ seen) then insertion_order seen rest
      else x :: insertion_order ({[ x ]} ∪ seen) rest
  end.

(** [significantPools.flatMap(pool => [pool.token0.id, pool.token1.id])] *)
Fixpoint token_ids (l : list entry) : result (list string) :=
  match l with
  | [] => Return []
  | ENull :: _ => Throw (TypeError "Cannot read properties of null (reading 'token0')")
  | EPool p :: rest =>
      token_ids rest ≫= fun ids : list string =>
      Return (token_id (token0 p) :: token_id (token1 p) :: ids)
  end.

(** [Array.prototype.map] with a callback that may raise. *)
Fixpoint Array_map {B} (f : entry -> result B) (l : list entry) : result (list B) :=
  match l with
  | [] => Return []
  | x :: rest =>
      f x ≫= fun y : B =>
      Array_map f rest ≫= fun ys : list B =>
      Return (y :: ys)
  end.

Section Orchestrator.
Context `{!NumberParser, !MathLib, !StringLib}.

(** [v < c] against a number [c]. *)
Definition js_lt (v : scalar) (c : float) : bool := (ToNumber v <? c)%float.

(** [tokenPrices[address.toLowerCase()]?.usd || 0] *)
Definition price_of (tokenPrices : gmap string quote) (address : string) : scalar :=
  let usd := match tokenPrices !! toLowerCase address with
             | Some q => usd q
             | None => JUndefined
             end in
  if ToBoolean usd then usd else JNumber 0.

(** [price.toFixed(digits)] on a price as step 7 holds it, a quote's [usd]
    or the number 0: only a number has the method. *)
Definition price_toFixed (what : string) (price : scalar) (digits : float)
  : result string :=
  match price with
  | JNumber x => Number_toFixed x digits
  | _ => Throw (TypeError (what ++ ".toFixed is not a function"))
  end.

(** The calls the report of one pool makes that can raise, in the order of
    the [console.log] lines (250-257). *)
Definition log_pool (pool : pool) (token0Price token1Price : scalar)
    (totalValueLockedUSD volumeUSD oneDayVolTVL apr : float) : result unit :=
  price_toFixed "token0Price" token0Price 8 ≫= fun _ : string =>
  price_toFixed "token1Price" token1Price 8 ≫= fun _ : string =>
  formatBigNumber (JNumber totalValueLockedUSD) (Some 8%float) ≫= fun _ : string =>
  Number_toFixed (ToNumber (feeTier pool) / 10000)%float 2 ≫= fun _ : string =>
  formatBigNumber (JNumber volumeUSD) (Some 2%float) ≫= fun _ : string =>
  Number_toFixed oneDayVolTVL 2 ≫= fun _ : string =>
  Number_toFixed apr 2 ≫= fun _ : string =>
  Return ().

(** The callback of step 7 (lines 223-269): [None] is the [null] of a pool
    that is skipped; [pool_volumeUSD] is [pool.volumeUSD]. *)
Definition enrich (tokenPrices : gmap string quote) (e : entry)
  : result (option enriched) :=
  match e with
  | ENull => Throw (TypeError "Cannot read properties of null (reading 'token0')")
  | EPool pool =>
      let pool_volumeUSD := volumeUSD pool in
      let token0Price := price_of tokenPrices (token_id (token0 pool)) in
      let token1Price := price_of tokenPrices (token_id (token1 pool)) in
      if js_lt token0Price 1e-6 || js_lt token1Price 1e-6 then Return None
      else
        let totalValueLockedUSD := parseFloat (totalValueLockedUSD pool) in
        let volumeUSD := parseFloat pool_volumeUSD in
        if negb (ToBoolean (JNumber totalValueLockedUSD))
           || negb (ToBoolean (JNumber volumeUSD))
        then Return None
        else
          let oneDayVolTVL := (volumeUSD / totalValueLockedUSD * 100)%float in
          let liquidity :=
            if js_gt (liquidity pool) 0 then liquidity pool else JNumber 1 in
          let apr :=
            parseFloat (JNumber (calculateAPR (feeTier pool) pool_volumeUSD liquidity)) in
          log_pool pool token0Price token1Price
                   totalValueLockedUSD volumeUSD oneDayVolTVL apr ≫= fun _ : unit =>
          Return (Some (mkEnriched pool token0Price token1Price apr oneDayVolTVL))
  end.

End Orchestrator.

Section Orchestration.
Context `{!NumberParser, !MathLib, !StringLib, !JsonCodec, !ReportCodec}.

Variable CACHE_FILE : string.
Variable COINGECKO_API_URL : string.

(** [saveToCache] on the list of step 7 (line 271). *)
Definition saveReport (fs : gmap string node) (significantPools : list (option enriched))
  : gmap string node * result unit :=
  let '(fs', written) :=
    writeFileSync fs CACHE_FILE (JSON_stringify_report significantPools) in
  (fs', try_catch written (fun _ => Return ())).

(** Steps 1 to 3: the pools to report, the files, and whether
    [fetchAllPools] was called; [None] when the fuel runs out. *)
Definition gather (sc : scope) (request : service) (limit : nat) (useCache : bool)
    (fuel : nat) (fs : gmap string node)
  : option (gmap string node * bool * result (list entry)) :=
  let from_cache : result (option (list entry)) :=
    if useCache then
      loadFromCache CACHE_FILE fs ≫= fun cachedPools : cached =>
      revalidate sc cachedPools
    else Return None in
  match from_cache with
  | Throw e => Some (fs, false, Throw e)
  | Return (Some significantPools) => Some (fs, false, Return significantPools)
  | Return None =>
      match fetchAllPools_in sc request limit fuel with
      | None => None
      | Some (Throw e) => Some (fs, true, Throw e)
      | Some (Return significantPools) =>
          let '(fs', saved) := saveToCache CACHE_FILE fs significantPools in
          Some (fs', true, saved ≫= fun _ : unit => Return significantPools)
      end
  end.

(** [fetchPoolsPricesAndAPR] in a scope.  The whole body is in a [try]
    whose handler logs; the function returns [undefined] on every path. *)
Definition fetchPoolsPricesAndAPR_in (sc : scope) (request : service)
    (get : price_service) (limit : nat) (useCache : bool) (fuel : nat)
    (fs : gmap string node) : option run :=
  match gather sc request limit useCache fuel fs with
  | None => None
  | Some (fs1, fetched, Throw e) => Some (mkRun fs1 fetched [] (Some e))
  | Some (fs1, fetched, Return significantPools) =>
      if (length significantPools =? 0)%nat then Some (mkRun fs1 fetched [] None)
      else
        match token_ids significantPools with
        | Throw e => Some (mkRun fs1 fetched [] (Some e))
        | Return ids =>
            let tokenAddresses := insertion_order ∅ ids in
            match PriceFetcher.fetchTokenPrices COINGECKO_API_URL get
                    tokenAddresses fuel with
            | None => None
            | Some (urls, Throw e) => Some (mkRun fs1 fetched urls (Some e))
            | Some (urls, Return tokenPrices) =>
                match Array_map (enrich tokenPrices) significantPools with
                | Throw e => Some (mkRun fs1 fetched urls (Some e))
                | Return enrichedPools =>
                    let '(fs2, saved) := saveReport fs1 enrichedPools in
                    Some (mkRun fs2 fetched urls
                            (match saved with Throw e => Some e | Return _ => None end))
                end
            end
        end
  end.

Definition fetchPoolsPricesAndAPR
  : service -> price_service -> nat -> bool -> nat -> gmap string node -> option run :=
  fetchPoolsPricesAndAPR_in module_scope.

End Orchestration.

(** ** The top level of the module (app.js, lines 9-31 and 280-291) *)

(** [path.normalize] is Node's. *)
Class PathLib := {
  path_normalize : string -> string
}.

(** An argument of [path.join]: a function, a string, or [undefined]. *)
Inductive js_arg :=
| AFunction
| AString (s : string)
| AUndefined.

(** [path.join] (POSIX) validates each argument in turn, then joins the
    strings that are not empty with a slash. *)
Fixpoint join_args (args : list js_arg) (joined : option string)
  : result (option string) :=
  match args with
  | [] => Return joined
  | AString s :: rest =>
      join_args rest
        (if String.eqb s "" then joined
         else match joined with
              | None => Some s
              | Some j => Some (j ++ "/" ++ s)
              end)
  | _ :: _ => Throw (TypeError "ERR_INVALID_ARG_TYPE")
  end.

Definition path_join `{!PathLib} (args : list js_arg) : result string :=
  join_args args None ≫= fun joined : option string =>
  Return (match joined with
          | None => "."
          | Some j => path_normalize j
          end).

(** [process.env.NAME] as an argument. *)
Definition env_arg (process_env : gmap string string) (k : string) : js_arg :=
  match process_env !! k with
  | Some v => AString v
  | None => AUndefined
  end.

Section TopLevel.
Context `{!NumberParser, !MathLib, !StringLib, !JsonCodec, !ReportCodec, !PathLib}.

(** The evaluation of [app.js] in the environment [env0].  The imported
    modules are evaluated first, so [priceFetcher.js] reads its URL from
    [env0]; then [config()] adds the variables of the [.env] file that are
    not set; the check runs; the constants are computed, [CACHE_FILE] from
    [path.dirname], which is a function; then the command line is read.
    [Throw] is an exception that nothing catches: the process ends before
    anything is sent or written. *)
Definition app_js (m : mode) (dotenv env0 : gmap string string)
    (args : list string) (request : service) (get : price_service) (fuel : nat)
    (fs : gmap string node) : option (result run) :=
  let process_env := env0 ∪ dotenv in
  match startup_check_in m process_env with
  | Throw e => Some (Throw e)
  | Return _ =>
      match path_join [AFunction; AString "../"; env_arg process_env "CACHE_FILENAME"] with
      | Throw e => Some (Throw e)
      | Return CACHE_FILE =>
          let useCache := bool_decide ("--use-cache" ∈ args) in
          let showHelp := bool_decide ("--help" ∈ args) || bool_decide ("-h" ∈ args) in
          if showHelp then Some (Return (mkRun fs false [] None))
          else
            Return <$> fetchPoolsPricesAndAPR CACHE_FILE
                         (default "undefined" (env0 !! "COINGECKO_API_URL"))
                         request get LIMIT useCache fuel fs
      end
  end.

End TopLevel.

(** Instances for closed examples.  The texts of the report are not part
    of the model, so the placeholders below stand for them. *)
Definition example_math : MathLib := {|
  Math_log10 := fun _ => zero;
  Math_pow := fun _ _ => one;
  Number_toFixed := fun _ _ => Return "0.00"
|}.

Definition example_report : ReportCodec := {|
  JSON_stringify_report := fun l => "[ " ++ pretty (length l) ++ " entries ]"
|}.

(** Quotes for the two tokens of the sample pools, and for one of them only. *)
Definition both_quotes : gmap string quote :=
  {[ "0xc02a" := mkQuote (JNumber 3000); "0xa0b8" := mkQuote (JNumber 1) ]}.
Definition one_quote : gmap string quote :=
  {[ "0xc02a" := mkQuote (JNumber 3000) ]}.

(** A price service that rejects every request. *)
Definition no_prices : price_service :=
  fun _ _ => PriceRejects (Error "Request failed with status code 429").

(** The entries a filter [g] accepts: [null] is none of them. *)
Definition passes (g : pool -> bool) (e : entry) : bool :=
  match e with
  | EPool p => g p
  | ENull => false
  end.

(** The first entry of each identifier, the identifiers of [seen] apart. *)
Fixpoint first_by_id (seen : gset string) (l : list entry) : list entry :=
  match l with
  | [] => []
  | ENull :: rest => first_by_id seen rest
  | EPool p :: rest =>
      if bool_decide (id p ∈ seen) then first_by_id seen rest
      else EPool p :: first_by_id ({[ id p ]} ∪ seen) rest
  end.

(** The kept pools are the first occurrences among the fetched entries
    that pass, and the set holds their identifiers. *)
Definition keeps_first (g : pool -> bool) (st : fetch_state) : Prop :=
  significantPools st = first_by_id ∅ (List.filter (passes g) (allPools st))
  /\ significantPoolsSet st = list_to_set (entry_ids (significantPools st)).

(** A pool with a token the sample quotes do not cover. *)
Definition dai : token := mkToken "0x6b17" "DAI" "Dai Stablecoin" (JNumber 18).
Definition pool_d : pool :=
  mkPool "0xd" weth dai (JNumber 3000) (JNumber 1000000) (JNumber 2000)
         (JNumber 7) (JNumber 60000).

(** A codec for a closed example, which reads every file as the array
    that holds [pool_b]. *)
Definition stale_codec : JsonCodec := {|
  JSON_stringify := fun _ => "[]";
  JSON_parse := fun _ => Return (CArray [EPool pool_b])
|}.

(** * Properties *)

(** ** Facts on binary64 values *)

Lemma SFeqb_finite_refl s m e :
  SFeqb (S754_finite s m e) (S754_finite s m e) = true.
Proof.
  unfold SFeqb, SFcompare.
  rewrite Z.compare_refl, Pos.compare_cont_refl. now destruct s.
Qed.

(** A value at or above a positive finite bound is neither [NaN] nor zero,
    and if it is infinite it is [+Infinity]. *)
Lemma leb_positive_bound c x mc ec :
  Prim2SF c = S754_finite false mc ec ->
  (c <=? x)%float = true ->
  is_nan x = false /\ PrimFloat.is_zero x = false /\
  (is_infinity x = true -> Prim2SF x = S754_infinity false).
Proof.
  intros Hc Hle. unfold is_nan, PrimFloat.is_zero, is_infinity.
  rewrite leb_spec, Hc in Hle. rewrite !FloatAxioms.eqb_spec, abs_spec.
  change (Prim2SF zero) with (S754_zero false).
  change (Prim2SF infinity) with (S754_infinity false).
  destruct (Prim2SF x) as [s|s| |s m e]; try discriminate Hle.
  - destruct s; [discriminate Hle|]. repeat split; reflexivity.
  - destruct s; [discriminate Hle|]. rewrite SFeqb_finite_refl.
    repeat split; try reflexivity. discriminate.
Qed.

Lemma mul_infinity_r x s : nan_or_inf (SF64mul x (S754_infinity s)) = true.
Proof. now destruct x. Qed.

Lemma div_nan_or_inf x y : nan_or_inf x = true -> nan_or_inf (SF64div x y) = true.
Proof. destruct x; try discriminate; now destruct y. Qed.

Lemma mul_nan_or_inf_finite x y :
  nan_or_inf x = true -> is_finite_SF y = true -> nan_or_inf (SF64mul x y) = true.
Proof. destruct x; try discriminate; now destruct y. Qed.

(** Neither [NaN] nor an infinity lies in a window with finite positive
    ends. *)
Lemma window_excludes_nan_or_inf lo hi a ml el mh eh :
  Prim2SF lo = S754_finite false ml el ->
  Prim2SF hi = S754_finite false mh eh ->
  nan_or_inf (Prim2SF a) = true ->
  (lo <=? a)%float && (a <? hi)%float = false.
Proof.
  intros Hlo Hhi Ha. rewrite leb_spec, ltb_spec, Hlo, Hhi.
  destruct (Prim2SF a) as [s|[|]| |s m e]; try discriminate Ha; reflexivity.
Qed.

(** ** The significance filter *)

Section Filter.
Context `{!NumberParser}.

(** An infinite volume gives an estimate that is infinite or [NaN],
    whatever the fee tier and the liquidity. *)
Lemma apr_of_infinite_volume fee volume liq :
  Prim2SF (ToNumber volume) = S754_infinity false ->
  let apr := calculateAPR fee volume liq in
  (aprPercentageThreshold <=? apr)%float && (apr <? aprMaxValue)%float = false.
Proof.
  intros Hv apr.
  eapply window_excludes_nan_or_inf; [vm_compute; reflexivity ..|].
  unfold apr, calculateAPR. cbv zeta.
  repeat (rewrite mul_spec || rewrite div_spec). rewrite Hv.
  do 2 (apply mul_nan_or_inf_finite; [|vm_compute; reflexivity]).
  apply div_nan_or_inf, mul_infinity_r.
Qed.

(** A value at or above the volume threshold is truthy. *)
Lemma truthy_above_threshold v :
  js_ge v volumeThreshold = true -> ToBoolean v = true.
Proof.
  unfold js_ge. intros Hle.
  destruct (leb_positive_bound volumeThreshold (ToNumber v) _ _ eq_refl Hle)
    as (Hnan & Hzero & _).
  destruct v as [| |b|x|s]; simpl in *; try discriminate.
  - now destruct b.
  - now rewrite Hzero, Hnan.
  - destruct (String.eqb s ""); [discriminate Hzero | reflexivity].
Qed.

(** What the volume threshold alone already forces. *)
Lemma above_volume_threshold (p : pool) :
  js_ge (volumeUSD p) volumeThreshold = true ->
  ToBoolean (volumeUSD p) = true
  /\ isNaN (volumeUSD p) = false
  /\ PrimFloat.is_zero (ToNumber (volumeUSD p)) = false
  /\ (is_finite (ToNumber (volumeUSD p)) = false ->
      (aprPercentageThreshold <=? pool_apr p)%float
      && (pool_apr p <? aprMaxValue)%float = false).
Proof.
  intros Hvol.
  destruct (leb_positive_bound volumeThreshold _ _ _ eq_refl Hvol)
    as (Hnan & Hzero & Hinf).
  repeat split; auto using truthy_above_threshold.
  unfold is_finite. rewrite Hnan. simpl. intros Hi.
  apply negb_false_iff in Hi.
  now apply apr_of_infinite_volume, Hinf.
Qed.

Lemma isPoolSignificant_refines (p : pool) :
  isPoolSignificant (EPool p) = Return (significant_spec p).
Proof.
  pose proof (above_volume_threshold p) as Hvol.
  unfold isPoolSignificant, significant_spec.
  fold (effective_liquidity p). fold (pool_apr p).
  change (volumeThreshold <=? ToNumber (volumeUSD p))%float
    with (js_ge (volumeUSD p) volumeThreshold).
  change (liquidityThreshold <=? ToNumber (totalValueLockedUSD p))%float
    with (js_ge (totalValueLockedUSD p) liquidityThreshold).
  destruct (js_ge (volumeUSD p) volumeThreshold).
  - destruct Hvol as (-> & -> & -> & Hwin); [reflexivity|].
    destruct (is_finite (ToNumber (volumeUSD p))).
    + now destruct (js_ge _ _), (_ <=? _)%float, (_ <? _)%float, (_ =? _)%float.
    + specialize (Hwin eq_refl).
      destruct (js_ge _ _), (_ <=? _)%float, (_ <? _)%float, (_ =? _)%float;
        try reflexivity; discriminate Hwin.
  - clear Hvol.
    destruct (ToBoolean _), (isNaN _), (js_ge _ _); simpl; try reflexivity;
      now rewrite !andb_false_r.
Qed.

End Filter.

(** ** The pool fetcher *)

Section Fetcher.
Variable sc : scope.
Variable request : service.
Variable limit : nat.

(** A page that is processed to its end without the limit being hit adds
    all its entries to [allPools]. *)
Lemma process_page_grows pools st st' :
  process_page sc limit pools st = (st', Return ()) ->
  fetchMore st' = false
  \/ (fetchMore st' = fetchMore st
      /\ length (allPools st') = length (allPools st) + length pools).
Proof.
  revert st. induction pools as [|[|p] rest IH]; intros st; simpl.
  - intros [= <-]. right. split; [done|lia].
  - discriminate.
  - destruct (call_ident sc "isSignificantPool" (EPool p)) as [b|e]; [|discriminate].
    set (st1 := if b && _ then _ else _).
    assert (fetchMore st1 = fetchMore st
            /\ length (allPools st1) = length (allPools st) + 1) as [Hm Hl].
    { unfold st1. destruct (b && _); simpl; rewrite length_app; simpl; done. }
    destruct (limit <=? length (allPools st1))%nat.
    + intros [= <-]. now left.
    + intros Hrest. apply IH in Hrest as [Hstop | [Hmore Hlen]]; [now left|].
      right. rewrite Hmore, Hlen, Hm, Hl. split; [done|lia].
Qed.

(** Enough fuel: the loop ends within [limit] rounds, whatever the service
    answers. *)
Lemma pagination_loop_terminates fuel st :
  limit - length (allPools st) <= fuel ->
  is_Some (pagination_loop sc request limit fuel st).
Proof.
  revert st. induction fuel as [|fuel IH]; intros st Hfuel.
  - simpl. destruct (fetchMore st); simpl; [|eauto].
    destruct (Nat.ltb_spec (length (allPools st)) limit); [lia|eauto].
  - simpl. destruct (fetchMore st) eqn:Hmore; simpl; [|eauto].
    destruct (Nat.ltb_spec (length (allPools st)) limit) as [Hlt|]; [|eauto].
    destruct (request (requests st) _) as [e|[pools|]]; [eauto| |eauto].
    destruct (process_page sc limit pools (sent st)) as [st' [[]|e]] eqn:Hpage;
      [|eauto].
    destruct (Nat.ltb_spec (length pools) batchSize) as [Hshort|Hfull].
    + destruct fuel; simpl; eauto.
    + apply process_page_grows in Hpage as [Hstop | [_ Hlen]].
      * destruct fuel; simpl; rewrite Hstop; simpl; eauto.
      * apply IH. simpl in Hlen. unfold batchSize in Hfull. lia.
Qed.

(** More fuel does not change a run that has ended. *)
Lemma pagination_loop_fuel_mono fuel fuel' st r :
  pagination_loop sc request limit fuel st = Some r ->
  fuel <= fuel' ->
  pagination_loop sc request limit fuel' st = Some r.
Proof.
  revert fuel' st. induction fuel as [|fuel IH]; intros fuel' st Hrun Hle.
  - simpl in Hrun. destruct fuel'; simpl; destruct (fetchMore st && _); done.
  - destruct fuel' as [|fuel']; [lia|]. simpl in *.
    destruct (fetchMore st && _); [|done].
    destruct (request (requests st) _) as [e|[pools|]]; [done| |done].
    destruct (process_page sc limit pools (sent st)) as [st' [[]|e]]; [|done].
    apply IH; [done|lia].
Qed.

Lemma deduplicated_keep p st :
  id p ∉ significantPoolsSet st ->
  deduplicated st -> deduplicated (keep (id p) (EPool p) st).
Proof.
  intros Hfresh [Hnodup Hin]. unfold deduplicated, entry_ids in *. simpl.
  rewrite omap_app. simpl. split.
  - apply NoDup_app. split; [done|]. split; [|apply NoDup_singleton].
    intros i Hi ->%list_elem_of_singleton. auto.
  - intros i [Hi | ->%list_elem_of_singleton]%elem_of_app; set_solver.
Qed.

Lemma process_page_deduplicated pools st :
  deduplicated st -> deduplicated (process_page sc limit pools st).1.
Proof.
  revert st. induction pools as [|[|p] rest IH]; intros st Hst; simpl; [done..|].
  destruct (call_ident sc "isSignificantPool" (EPool p)) as [b|e]; [|done].
  set (st1 := if b && _ then _ else _).
  assert (deduplicated st1) as Hst1.
  { unfold st1. destruct b; simpl; [|done]. case_bool_decide; simpl; [done|].
    now apply (deduplicated_keep p (set_last (id p) (push_all (EPool p) st))). }
  case_match; [done|]. now apply IH.
Qed.

Lemma pagination_loop_deduplicated fuel st st' outcome :
  deduplicated st ->
  pagination_loop sc request limit fuel st = Some (st', outcome) ->
  deduplicated st'.
Proof.
  revert st. induction fuel as [|fuel IH]; intros st Hst; simpl.
  - case_match; [done|]. now intros [= <- <-].
  - case_match; [|now intros [= <- <-]].
    destruct (request (requests st) _) as [e|[pools|]];
      [now intros [= <- <-]| |now intros [= <- <-]].
    pose proof (process_page_deduplicated pools (sent st) Hst) as Hpage.
    destruct (process_page sc limit pools (sent st)) as [st1 [[]|e]];
      [|now intros [= <- <-]].
    apply IH. now case_match.
Qed.

(** A scope that does not bind [isSignificantPool] keeps nothing. *)
Lemma process_page_unbound pools st :
  sc !! "isSignificantPool" = None ->
  significantPools (process_page sc limit pools st).1 = significantPools st.
Proof.
  intros Hsc. destruct pools as [|[|p] rest]; simpl; [done..|].
  unfold call_ident. now rewrite Hsc.
Qed.

Lemma pagination_loop_unbound fuel st st' outcome :
  sc !! "isSignificantPool" = None ->
  pagination_loop sc request limit fuel st = Some (st', outcome) ->
  significantPools st' = significantPools st.
Proof.
  intros Hsc. revert st. induction fuel as [|fuel IH]; intros st; simpl.
  - case_match; [done|]. now intros [= <- <-].
  - case_match; [|now intros [= <- <-]].
    destruct (request (requests st) _) as [e|[pools|]];
      [now intros [= <- <-]| |now intros [= <- <-]].
    pose proof (process_page_unbound pools (sent st) Hsc) as Hpage.
    destruct (process_page sc limit pools (sent st)) as [st1 [[]|e]];
      simpl in Hpage; [|now intros [= <- <-]].
    intros Hrun. apply IH in Hrun. rewrite Hrun, <- Hpage.
    now case_match.
Qed.

End Fetcher.

Lemma module_scope_unbound `{!NumberParser} :
  module_scope !! "isSignificantPool" = None.
Proof. now apply lookup_singleton_ne. Qed.

Lemma aliased_scope_bound `{!NumberParser} :
  aliased_scope !! "isSignificantPool" = Some isPoolSignificant.
Proof. apply lookup_insert_eq. Qed.

(** X1: in the scope of [app.js] nothing is ever kept: whatever the
    service answers, a run of [fetchAllPools] that ends returns the empty
    array. *)
Lemma fetchAllPools_keeps_nothing `{!NumberParser} request limit fuel r :
  fetchAllPools request limit fuel = Some r -> r = Return [].
Proof.
  unfold fetchAllPools, fetchAllPools_in.
  destruct (pagination_loop _ _ _ _ _) as [[st outcome]|] eqn:Hrun; [|done].
  apply pagination_loop_unbound in Hrun; [|apply module_scope_unbound].
  intros [= <-]. rewrite Hrun. now destruct outcome.
Qed.

Lemma fetchAllPools_keeps_nothing_witness :
  exists r, @fetchAllPools example_parser two_pages 100 100 = Some r
            /\ r = Return [].
Proof.
  eexists. split; [vm_compute; reflexivity|].
  apply (@fetchAllPools_keeps_nothing example_parser two_pages 100 100).
  vm_compute. reflexivity.
Defined.

(** X2: with as much fuel as the limit the fetcher returns, in any scope
    and for any service, and it returns normally. *)
Lemma fetchAllPools_in_returns sc request limit fuel :
  limit <= fuel ->
  exists l, fetchAllPools_in sc request limit fuel = Some (Return l).
Proof.
  intros Hfuel. unfold fetchAllPools_in.
  destruct (pagination_loop_terminates sc request limit fuel fetch_init)
    as [[st outcome] ->]; [simpl; lia|].
  exists (significantPools st). now destruct outcome.
Qed.

Lemma fetchAllPools_in_returns_witness :
  100 <= 100
  /\ exists l, fetchAllPools_in (@module_scope example_parser) page_then_failure 100 100
               = Some (Return l).
Proof.
  split; [lia|]. apply fetchAllPools_in_returns. lia.
Defined.

Lemma fetchAllPools_in_deduplicated sc request limit fuel l :
  fetchAllPools_in sc request limit fuel = Some (Return l) ->
  NoDup (entry_ids l).
Proof.
  unfold fetchAllPools_in.
  destruct (pagination_loop _ _ _ _ _) as [[st outcome]|] eqn:Hrun; [|done].
  apply pagination_loop_deduplicated in Hrun as [Hnodup _].
  - destruct outcome; now intros [= <-].
  - split; [constructor | intros i Hi; now apply elem_of_nil in Hi].
Qed.

(** * The claims *)

(** ** The filter and the estimate *)

(** C1: on every pool object the filter returns, without raising, exactly
    the conjunction the specification lists: the volume is a finite number
    that is not zero, the TVL is at least 50,000, the volume is at least
    1,000, the APR (liquidity replaced by 1 unless positive) is at least
    0.05 and below 200, and the APR is not [Infinity].  A TVL of 49,999.99
    is rejected and one of exactly 50,000 accepted; an APR of exactly 200
    is rejected and one just below it accepted. *)
Theorem isPoolSignificant_decision `{!NumberParser} :
  (forall p, isPoolSignificant (EPool p) = Return (significant_spec p))
  /\ (forall p, ToNumber (totalValueLockedUSD p) = 49999.99%float ->
        isPoolSignificant (EPool p) = Return false)
  /\ (ToNumber (totalValueLockedUSD pool_a_low) = 49999.99%float
      /\ isPoolSignificant (EPool pool_a_low) = Return false)
  /\ (ToNumber (totalValueLockedUSD pool_a) = 50000%float
      /\ isPoolSignificant (EPool pool_a) = Return true)
  /\ (forall p, pool_apr p = 200%float ->
        isPoolSignificant (EPool p) = Return false)
  /\ (pool_apr pool_a_200 = 200%float
      /\ isPoolSignificant (EPool pool_a_200) = Return false)
  /\ (pool_apr pool_a = 199.99945205629575%float
      /\ isPoolSignificant (EPool pool_a) = Return true).
Proof.
  split; [exact isPoolSignificant_refines|].
  split.
  { intros p Htvl. rewrite isPoolSignificant_refines. f_equal.
    unfold significant_spec. rewrite Htvl.
    change (liquidityThreshold <=? 49999.99)%float with false.
    now rewrite andb_false_r. }
  do 2 (split; [split; reflexivity|]).
  split.
  { intros p Hapr. rewrite isPoolSignificant_refines. f_equal.
    unfold significant_spec. rewrite Hapr.
    change (200 <? aprMaxValue)%float with false.
    now rewrite !andb_false_r. }
  split; split; reflexivity.
Qed.

(** C2: on a fee tier of value [F], a volume of value [V >= 0] and a
    liquidity of value [L > 0] the estimate is
    [F / 1,000,000 * V / L * 365 * 100], computed in binary64 in that
    order. *)
Theorem calculateAPR_formula `{!NumberParser} (fee volume liq : scalar) (F V L : float) :
  ToNumber fee = F -> ToNumber volume = V -> ToNumber liq = L ->
  (0 <=? V)%float = true ->
  (0 <? L)%float = true ->
  calculateAPR fee volume liq = ((F / 1000000 * V / L) * 365 * 100)%float.
Proof. intros <- <- <- _ _. reflexivity. Qed.

Lemma calculateAPR_formula_witness :
  (0 <=? 5000000)%float = true
  /\ (0 <? 1000000)%float = true
  /\ @calculateAPR example_parser (JNumber 3000) (JNumber 5000000) (JNumber 1000000)
     = ((3000 / 1000000 * 5000000 / 1000000) * 365 * 100)%float
  /\ @calculateAPR example_parser (JNumber 3000) (JNumber 5000000) (JNumber 1000000)
     = 547.5%float.
Proof.
  split; [reflexivity|]. split; [reflexivity|]. split; [|reflexivity].
  apply (@calculateAPR_formula example_parser
           (JNumber 3000) (JNumber 5000000) (JNumber 1000000)); reflexivity.
Defined.

(** C10: [formatBigNumber(0)] is "N/A", not "0.00", whatever the digit
    count; so is [formatBigNumber(-0)]. *)
Theorem formatBigNumber_zero `{!NumberParser, !MathLib} (decimals : option float) :
  formatBigNumber (JNumber 0) decimals = Return "N/A"
  /\ formatBigNumber (JNumber (-0)) decimals = Return "N/A"
  /\ formatBigNumber (JNumber 0) decimals <> Return "0.00".
Proof.
  assert (forall x, PrimFloat.is_zero x = true ->
                    formatBigNumber (JNumber x) decimals = Return "N/A") as Hguard.
  { intros x Hx. unfold formatBigNumber, ToBoolean. now rewrite Hx. }
  rewrite !Hguard by reflexivity. repeat split. discriminate.
Qed.

(** ** The start-up check *)

(** C6 (the code departs from it): with the three required variables set
    the check still raises.  As module code it raises on the loop variable
    in every environment; read as sloppy code it looks up the index "0". *)
Theorem startup_check_raises_when_all_set :
  (forall k, k ∈ req_env -> env_truthy full_env k = true)
  /\ (forall process_env, startup_check process_env = Throw (ReferenceError "env"))
  /\ startup_check_in Sloppy full_env
     = Throw (Error "Missing required environment variable: 0").
Proof.
  split.
  { intros k Hk. unfold req_env in Hk.
    repeat (apply elem_of_cons in Hk as [-> | Hk]; [vm_compute; reflexivity|]).
    now apply elem_of_nil in Hk. }
  split; [reflexivity|]. vm_compute. reflexivity.
Qed.

(** ** The pool fetcher *)

(** C3 (the code departs from it): of the three pools of the page exactly
    [pool_a] passes the filter, and [fetchAllPools] returns the empty array,
    because the name it calls is bound nowhere; with the filter bound under
    that name it would return [pool_a] alone. *)
Theorem fetchAllPools_one_page `{!NumberParser} :
  isPoolSignificant (EPool pool_a) = Return true
  /\ isPoolSignificant (EPool pool_b) = Return false
  /\ isPoolSignificant (EPool pool_c) = Return false
  /\ call_ident module_scope "isSignificantPool" (EPool pool_a)
     = Throw (ReferenceError "isSignificantPool")
  /\ fetchAllPools one_page 100 100 = Some (Return [])
  /\ fetchAllPools_in aliased_scope one_page 100 100 = Some (Return [EPool pool_a]).
Proof. repeat split; vm_compute; reflexivity. Qed.

(** C4 (the code departs from it): in every scope the kept pools carry
    pairwise distinct identifiers.  But over two pages that both hold
    [pool_a] the fetcher of [app.js] returns no entry for it, where one is
    claimed: the first call of the unbound name ends the loop.  With the
    filter bound under that name, the first occurrence alone is kept. *)
Theorem fetchAllPools_duplicates `{!NumberParser} :
  (forall sc request limit fuel l,
      fetchAllPools_in sc request limit fuel = Some (Return l) ->
      NoDup (entry_ids l))
  /\ fetchAllPools two_pages 100 100 = Some (Return [])
  /\ fetchAllPools_in aliased_scope two_pages 100 100 = Some (Return [EPool pool_a]).
Proof.
  split; [exact fetchAllPools_in_deduplicated|].
  split; vm_compute; reflexivity.
Qed.

(** C5: when the loop is left by an exception, in any scope and whatever
    raised it, the run is over (more fuel leaves the same final state, so
    no further request is sent) and [fetchAllPools] returns normally the
    pools kept up to then. *)
Theorem fetchAllPools_partial_result sc request limit fuel st e :
  pagination_loop sc request limit fuel fetch_init = Some (st, Throw e) ->
  forall fuel', fuel <= fuel' ->
    pagination_loop sc request limit fuel' fetch_init = Some (st, Throw e)
    /\ fetchAllPools_in sc request limit fuel' = Some (Return (significantPools st)).
Proof.
  intros Hrun fuel' Hle. unfold fetchAllPools_in.
  now rewrite (pagination_loop_fuel_mono _ _ _ _ _ _ _ Hrun Hle).
Qed.

Lemma fetchAllPools_partial_result_witness :
  exists st e,
    pagination_loop (@aliased_scope example_parser) page_then_failure 100 2 fetch_init
    = Some (st, Throw e)
    /\ significantPools st = [EPool pool_a]
    /\ requests st = 2
    /\ fetchAllPools_in (@aliased_scope example_parser) page_then_failure 100 100
       = Some (Return (significantPools st)).
Proof.
  eexists _, _. split; [vm_compute; reflexivity|].
  split; [reflexivity|]. split; [reflexivity|].
  apply (fetchAllPools_partial_result _ _ 100 2 _ (Error "socket hang up"));
    [vm_compute; reflexivity | lia].
Defined.

(** ** The cache *)

Section CacheFacts.
Context `{!JsonCodec}.
Variable CACHE_FILE : string.

(** C7: without a cache file the loader returns [null], which is not the
    empty array; a failed read and a failed parse are caught and give
    [null] too; a file that parses gives what the parser returned.  The
    loader never raises.  A path under which no file can be created is
    without a cache file, and a read-only file is loaded as any file. *)
Theorem loadFromCache_cases (fs : gmap string node) :
  (fs !! CACHE_FILE = None -> loadFromCache CACHE_FILE fs = Return CNull)
  /\ (forall code, fs !! CACHE_FILE = Some (Inaccessible code) ->
        loadFromCache CACHE_FILE fs = Return CNull)
  /\ (forall text e, fs !! CACHE_FILE = Some (File text) ->
        JSON_parse text = Throw e ->
        loadFromCache CACHE_FILE fs = Return CNull)
  /\ (forall text v, fs !! CACHE_FILE = Some (File text) ->
        JSON_parse text = Return v ->
        loadFromCache CACHE_FILE fs = Return v)
  /\ (exists v, loadFromCache CACHE_FILE fs = Return v)
  /\ CNull <> CArray []
  /\ (forall code, fs !! CACHE_FILE = Some (Uncreatable code) ->
        loadFromCache CACHE_FILE fs = Return CNull)
  /\ (forall text code, fs !! CACHE_FILE = Some (ReadOnly text code) ->
        loadFromCache CACHE_FILE fs
        = loadFromCache CACHE_FILE (<[ CACHE_FILE := File text ]> fs)).
Proof.
  unfold loadFromCache, existsSync, readFileSync.
  repeat split; try discriminate.
  - now intros ->.
  - now intros code ->.
  - intros text e -> Hparse. simpl. now rewrite Hparse.
  - intros text v -> Hparse. simpl. now rewrite Hparse.
  - destruct (fs !! CACHE_FILE) as [[text|code|text code|code]|]; simpl; eauto;
      destruct (JSON_parse text); eauto.
  - now intros code ->.
  - intros text code ->. now rewrite lookup_insert_eq.
Qed.

(** A refused write is caught and leaves every file as it was. *)
Lemma saveToCache_refused (fs : gmap string node) pools e :
  (writeFileSync fs CACHE_FILE (JSON_stringify pools)).2 = Throw e ->
  saveToCache CACHE_FILE fs pools = (fs, Return ()).
Proof.
  unfold saveToCache, writeFileSync.
  now destruct (fs !! CACHE_FILE) as [[text|code|text code|code]|].
Qed.

Lemma written_insert (fs : gmap string node) text :
  (writeFileSync fs CACHE_FILE text).2 = Return () ->
  writeFileSync fs CACHE_FILE text = (<[ CACHE_FILE := File text ]> fs, Return ()).
Proof.
  unfold writeFileSync. now destruct (fs !! CACHE_FILE) as [[?|?|? ?|?]|].
Qed.

(** Whether a write is carried out depends on the path alone. *)
Lemma written_any (fs : gmap string node) text text' :
  (writeFileSync fs CACHE_FILE text).2 = Return () ->
  (writeFileSync fs CACHE_FILE text').2 = Return ().
Proof.
  unfold writeFileSync. now destruct (fs !! CACHE_FILE) as [[?|?|? ?|?]|].
Qed.

(** A save whose write is carried out leaves the serialization of its list
    alone in the file, whatever was saved before. *)
Lemma saveToCache_written (fs : gmap string node) pools :
  (writeFileSync fs CACHE_FILE (JSON_stringify pools)).2 = Return () ->
  saveToCache CACHE_FILE fs pools
  = (<[ CACHE_FILE := File (JSON_stringify pools) ]> fs, Return ())
  /\ (forall prior,
        (saveToCache CACHE_FILE (saveToCache CACHE_FILE fs prior).1 pools).1
        = <[ CACHE_FILE := File (JSON_stringify pools) ]> fs).
Proof.
  intros Hwritten.
  assert (forall l, saveToCache CACHE_FILE fs l
                    = (<[ CACHE_FILE := File (JSON_stringify l) ]> fs, Return ()))
    as Hsave.
  { intros l. unfold saveToCache.
    now rewrite written_insert by (eapply written_any, Hwritten). }
  split; [apply Hsave|]. intros prior. rewrite Hsave. simpl.
  unfold saveToCache, writeFileSync.
  rewrite lookup_insert_eq. simpl. now rewrite insert_insert_eq.
Qed.

End CacheFacts.

(** ** The JSON codec *)

Lemma json_induction (P : json -> Prop) :
  P JsonNull -> (forall b, P (JsonBool b)) -> (forall x, P (JsonNumber x)) ->
  (forall s, P (JsonString s)) ->
  (forall items, Forall P items -> P (JsonArray items)) ->
  (forall members, Forall (fun m => P m.2) members -> P (JsonObject members)) ->
  forall v, P v.
Proof.
  intros Hnull Hbool Hnum Hstr Harr Hobj.
  fix IH 1.
  intros [| b | x | s | items | members];
    [apply Hnull | apply Hbool | apply Hnum | apply Hstr | |].
  - apply Harr. revert items. fix IHitems 1.
    intros [|v items]; constructor; [apply IH | apply IHitems].
  - apply Hobj. revert members. fix IHmembers 1.
    intros [|[k v] members]; constructor; [apply IH | apply IHmembers].
Qed.

Lemma number_step_char q c q' :
  number_step q c = Some q' -> number_char c = true.
Proof.
  destruct c as [[] [] [] [] [] [] [] []]; destruct q; try discriminate;
    reflexivity.
Qed.

Lemma number_run_chars l : forall q,
  number_run q l = true -> forallb number_char l = true.
Proof.
  induction l as [|c l IH]; intros q; simpl; [done|].
  destruct (number_step q c) as [q'|] eqn:Hstep; [|done].
  intros Hrun. rewrite (number_step_char _ _ _ Hstep). simpl. eauto.
Qed.

Lemma json_number_head l :
  json_number l = true ->
  exists c rest, l = c :: rest
    /\ ((code c =? 45)%N || is_digit c = true)
    /\ forallb number_char rest = true.
Proof.
  destruct l as [|c rest]; [done|]. unfold json_number. cbn [number_run].
  destruct (number_step NStart c) as [q|] eqn:Hstep; [|done].
  intros Hrun. exists c, rest. split; [done|].
  split; [|eapply number_run_chars; eauto].
  revert Hstep. unfold number_step.
  destruct (code c =? 45)%N; [done|]. destruct (code c =? 48)%N eqn:Hzero.
  - apply N.eqb_eq in Hzero. unfold is_digit. now rewrite Hzero.
  - now destruct (is_digit c).
Qed.

Section Lexing.
Context `{!NumberParser, !NumberPrinter}.

Lemma emit_app a b l : emit (a ++ b) l = emit a (emit b l).
Proof. unfold emit. apply fold_right_app. Qed.

Lemma lex_from_cons st c r :
  lex_from st (c :: r)
  = match lex_step st c with
    | Go complete next => emit complete (lex_from next r)
    | Bad => BadSyntax
    | Out => Beyond
    end.
Proof. reflexivity. Qed.

Lemma lex_ws ws r :
  forallb is_ws ws = true -> lex_from Idle (ws ++ r) = lex_from Idle r.
Proof.
  induction ws as [|c ws IH]; [done|]. simpl forallb.
  intros [Hc Hws]%andb_prop. simpl app. rewrite lex_from_cons.
  simpl lex_step. unfold idle. rewrite Hc. simpl. auto.
Qed.

Lemma lex_ws_cons c r : is_ws c = true -> lex_from Idle (c :: r) = lex_from Idle r.
Proof. intros Hc. now apply (lex_ws [c]); simpl; rewrite Hc. Qed.

Lemma lex_ended st t c r :
  lex_step st c = ended (Some t) c ->
  lex_from st (c :: r) = emit [t] (lex_from Idle (c :: r)).
Proof.
  intros Hstep. rewrite !lex_from_cons, Hstep. simpl. unfold ended.
  now destruct (idle c).
Qed.

Lemma lex_word w v :
  word_lexeme (rev (chars w)) = Some (TScalar v) ->
  forallb is_lower (chars w) = true ->
  w <> "" ->
  lexes (chars w) [TScalar v].
Proof.
  intros Hword Hlower Hw rest Hrest.
  destruct w as [|c w]; [done|]. clear Hw. simpl in Hlower.
  apply andb_prop in Hlower as [Hc Hlower].
  simpl chars. simpl app. rewrite lex_from_cons. simpl lex_step.
  assert (idle c = Go [] (InWord [c])) as ->.
  { revert Hc. clear. destruct c as [[] [] [] [] [] [] [] []]; try discriminate;
      reflexivity. }
  simpl emit. simpl in Hword.
  assert (forall seen,
    word_lexeme (rev (chars w) ++ seen) = Some (TScalar v) ->
    lex_from (InWord seen) (chars w ++ rest)
    = emit [TScalar v] (lex_from Idle rest)) as Hgo.
  { clear Hword Hc. induction (chars w) as [|d l IH]; intros seen Hword.
    - simpl in *. destruct rest as [|d rest].
      + simpl. now rewrite Hword.
      + destruct Hrest as [_ Hd]. apply lex_ended. simpl. now rewrite Hd, Hword.
    - simpl in Hlower. apply andb_prop in Hlower as [Hd Hlower].
      simpl app. rewrite lex_from_cons. simpl. rewrite Hd. simpl.
      apply IH; [done|]. simpl in Hword. now rewrite <- app_assoc in Hword. }
  now apply Hgo.
Qed.

Lemma lex_number (x : float) :
  json_number (chars (Number_toString x)) = true ->
  lexes (chars (Number_toString x))
        [TScalar (JsonNumber (StringToNumber (Number_toString x)))].
Proof.
  intros Hnumber rest Hrest.
  destruct (json_number_head _ Hnumber) as (c & l & Hl & Hc & Hchars).
  assert (forall seen,
    text (rev l ++ seen) = Number_toString x ->
    rev (rev l ++ seen) = chars (Number_toString x) ->
    lex_from (InNumber seen) (l ++ rest)
    = emit [TScalar (JsonNumber (StringToNumber (Number_toString x)))]
        (lex_from Idle rest)) as Hgo.
  { clear Hl Hc. induction l as [|d l IH]; intros seen Htext Hrev.
    - simpl in *.
      assert (number_lexeme seen
              = Some (TScalar (JsonNumber (StringToNumber (Number_toString x)))))
        as Hlexeme.
      { unfold number_lexeme. now rewrite Hrev, Hnumber, Htext. }
      destruct rest as [|d rest].
      + simpl. now rewrite Hlexeme.
      + destruct Hrest as [Hd _]. apply lex_ended. simpl.
        now rewrite Hd, Hlexeme.
    - simpl in Hchars. apply andb_prop in Hchars as [Hd Hchars].
      simpl app. rewrite lex_from_cons. simpl. rewrite Hd. simpl.
      apply IH; [done| |]; simpl in *; now rewrite <- app_assoc in *. }
  rewrite Hl. simpl app. rewrite lex_from_cons. simpl lex_step.
  assert (idle c = Go [] (InNumber [c])) as ->.
  { revert Hc. clear. destruct c as [[] [] [] [] [] [] [] []]; try discriminate;
      reflexivity. }
  simpl emit. apply Hgo.
  - unfold text. rewrite rev_app_distr, rev_involutive. simpl.
    change (string_of_list_ascii (c :: l) = Number_toString x).
    rewrite <- Hl. apply string_of_list_ascii_of_string.
  - rewrite rev_app_distr, rev_involutive. simpl. now rewrite Hl.
Qed.

Lemma lex_quote_char c seen r :
  lex_from (InString seen) (quote_char c ++ r) = lex_from (InString (c :: seen)) r.
Proof.
  destruct c as [[] [] [] [] [] [] [] []]; reflexivity.
Qed.

Lemma lex_string s : lexes (QuoteJSONString s) [TScalar (JsonString s)].
Proof.
  intros rest _. unfold QuoteJSONString. simpl app. rewrite lex_from_cons.
  simpl. rewrite <- app_assoc.
  assert (forall l seen,
    lex_from (InString seen) (flat_map quote_char l ++ [quotation_mark] ++ rest)
    = emit [TScalar (JsonString (text (rev l ++ seen)))] (lex_from Idle rest))
    as Hgo.
  { induction l as [|c l IH]; intros seen; [reflexivity|].
    simpl flat_map. rewrite <- app_assoc, lex_quote_char, IH.
    simpl. now rewrite <- app_assoc. }
  rewrite Hgo. unfold text. rewrite app_nil_r, rev_involutive.
  now rewrite string_of_list_ascii_of_string.
Qed.

End Lexing.

Section Codec.
Context `{!NumberParser, !NumberPrinter}.
Local Open Scope list_scope.

Lemma emit_lexemes ts us : emit ts (Lexemes us) = Lexemes (ts ++ us).
Proof. induction ts as [|t ts IH]; [done|]. simpl. now rewrite IH. Qed.

Lemma lex_punctuation c t r :
  idle c = Go [t] Idle -> lex_from Idle (c :: r) = emit [t] (lex_from Idle r).
Proof. intros Hc. rewrite lex_from_cons. simpl lex_step. now rewrite Hc. Qed.

Lemma delimited_parts (ws : list ascii) (parts : list (list ascii)) r :
  delimited (join_more (","%char :: ws) parts ++ line_feed :: r).
Proof. destruct parts; simpl; now split. Qed.

Lemma lex_parts closing tc indent ws parts tss r :
  idle closing = Go [tc] Idle ->
  forallb is_ws indent = true ->
  forallb is_ws ws = true ->
  Forall2 lexes parts tss ->
  lex_from Idle (join_more (","%char :: ws) parts
                 ++ line_feed :: indent ++ closing :: r)
  = emit (join_more [TComma] tss ++ [tc]) (lex_from Idle r).
Proof.
  intros Hclosing Hindent Hws. induction 1 as [|p ts parts tss Hp _ IH].
  - cbn [join_more app].
    rewrite (lex_ws (line_feed :: indent) (closing :: r)) by (simpl; done).
    now apply lex_punctuation.
  - cbn [join_more]. rewrite <- !app_assoc. cbn [app].
    rewrite (lex_punctuation _ TComma) by reflexivity.
    rewrite lex_ws by done. rewrite Hp by apply delimited_parts.
    rewrite IH. now rewrite <- !emit_app.
Qed.

Lemma lex_wrap opening closing topen tclose indent parts tss :
  idle opening = Go [topen] Idle ->
  idle closing = Go [tclose] Idle ->
  forallb is_ws indent = true ->
  Forall2 lexes parts tss ->
  lexes (wrap opening closing indent parts)
        (topen :: join [TComma] tss ++ [tclose]).
Proof.
  intros Hopening Hclosing Hindent Hparts rest _.
  destruct Hparts as [|p ts parts tss Hp Hparts].
  - cbn [wrap join app]. rewrite (lex_punctuation _ _ _ Hopening).
    now rewrite (lex_punctuation _ _ _ Hclosing).
  - cbn [wrap join]. rewrite <- !app_assoc. cbn [app].
    rewrite (lex_punctuation _ _ _ Hopening).
    assert (forallb is_ws (indent ++ gap) = true) as Hinner.
    { rewrite forallb_app, Hindent. reflexivity. }
    rewrite lex_ws_cons, (lex_ws indent), (lex_ws gap) by done.
    rewrite Hp by apply delimited_parts.
    rewrite (lex_parts closing tclose indent (line_feed :: indent ++ gap)
               parts tss rest Hclosing Hindent) by done.
    rewrite <- !emit_app. now rewrite <- ?app_assoc.
Qed.

Lemma lex_serialize v : forall indent,
  forallb is_ws indent = true ->
  Forall printable (numbers v) ->
  lexes (serialize indent v) (lexemes (reread v)).
Proof.
  induction v as [| b | x | s | items IH | members IH] using json_induction;
    intros indent Hindent Hnumbers.
  - now apply (lex_word "null").
  - destruct b; [now apply (lex_word "true") | now apply (lex_word "false")].
  - apply Forall_inv in Hnumbers. cbn [serialize reread]. unfold reread_number.
    unfold printable in Hnumbers.
    destruct (is_finite x); [apply lex_number; now apply Hnumbers|].
    now apply (lex_word "null").
  - apply lex_string.
  - cbn [serialize reread lexemes].
    apply lex_wrap; [reflexivity | reflexivity | done |].
    cbn [numbers] in Hnumbers.
    assert (forallb is_ws (indent ++ gap) = true) as Hinner
        by (rewrite forallb_app, Hindent; reflexivity).
    induction IH as [|v items Hv _ IHitems]; [constructor|].
    cbn [flat_map] in Hnumbers. apply Forall_app in Hnumbers as [Hhere Hthere].
    constructor; [now apply Hv | now apply IHitems].
  - cbn [serialize reread lexemes].
    apply lex_wrap; [reflexivity | reflexivity | done |].
    cbn [numbers] in Hnumbers.
    assert (forallb is_ws (indent ++ gap) = true) as Hinner
        by (rewrite forallb_app, Hindent; reflexivity).
    induction IH as [|[key value] members Hv _ IHmembers]; [constructor|].
    cbn [flat_map] in Hnumbers. apply Forall_app in Hnumbers as [Hhere Hthere].
    constructor; [|now apply IHmembers].
    intros rest Hrest. rewrite <- !app_assoc.
    rewrite (lex_string key) by (simpl; now split). cbn [chars app].
    rewrite (lex_punctuation _ TColon) by reflexivity.
    rewrite lex_ws_cons by reflexivity.
    simpl in Hv. rewrite Hv by done. now rewrite <- !emit_app.
Qed.

(** The value is read back from its lexemes, in any place where a value
    is expected. *)
Lemma parse_first_item v stack rest :
  parse_from (FirstItem stack) (lexemes v ++ rest)
  = parse_from (Value (FArray [] :: stack)) (lexemes v ++ rest).
Proof. now destruct v. Qed.

Lemma parse_lexemes v : forall stack rest,
  parse_from (Value stack) (lexemes v ++ rest) = parse_from (feed v stack) rest.
Proof.
  induction v as [| b | x | s | items IH | members IH] using json_induction;
    intros stack rest; try reflexivity.
  - cbn [lexemes]. destruct IH as [|v items Hv IH]; [reflexivity|].
    cbn [join app map]. rewrite <- !app_assoc.
    change (parse_from (Value stack) (TLBracket :: ?l))
      with (parse_from (FirstItem stack) l).
    rewrite parse_first_item, Hv. cbn [feed].
    assert (forall done,
      parse_from (MoreItems done stack)
        (join_more [TComma] (map lexemes items) ++ [TRBracket] ++ rest)
      = parse_from (feed (JsonArray (rev done ++ items)) stack) rest) as Hgo.
    { induction IH as [|w items Hw _ IHitems]; intros done.
      - now rewrite app_nil_r.
      - cbn [map join_more]. rewrite <- !app_assoc. cbn [app].
        change (parse_from (MoreItems done stack) (TComma :: ?l))
          with (parse_from (Value (FArray done :: stack)) l).
        rewrite Hw. cbn [feed]. rewrite IHitems. cbn [rev].
        now rewrite <- app_assoc. }
    apply (Hgo [v]).
  - cbn [lexemes]. destruct IH as [|[key v] members Hv IH]; [reflexivity|].
    cbn [join app map]. rewrite <- !app_assoc. simpl in Hv.
    change (parse_from (Value stack)
              (TLBrace :: TScalar (JsonString key) :: TColon :: ?l))
      with (parse_from (Value (FObject [] key :: stack)) l).
    rewrite Hv. cbn [feed].
    assert (forall done,
      parse_from (MoreMembers done stack)
        (join_more [TComma]
           (map (fun m => let '(key, value) := m in
                          TScalar (JsonString key) :: TColon :: lexemes value)
              members)
         ++ [TRBrace] ++ rest)
      = parse_from (feed (JsonObject (rev done ++ members)) stack) rest) as Hgo.
    { induction IH as [|[k w] members Hw _ IHmembers]; intros done.
      - now rewrite app_nil_r.
      - cbn [map join_more]. rewrite <- !app_assoc. cbn [app]. simpl in Hw.
        change (parse_from (MoreMembers done stack)
                  (TComma :: TScalar (JsonString k) :: TColon :: ?l))
          with (parse_from (Value (FObject done k :: stack)) l).
        rewrite Hw. cbn [feed]. rewrite IHmembers. cbn [rev].
        now rewrite <- app_assoc. }
    apply (Hgo [(key, v)]).
Qed.

(** The properties of a pool are read back from its members. *)
Lemma member_app key a b :
  member key (a ++ b)
  = match member key b with Some v => Some v | None => member key a end.
Proof.
  induction a as [|[k v] a IH]; simpl; [now destruct (member key b)|].
  rewrite IH. now destruct (member key b).
Qed.

Lemma member_property key k x :
  member key (property k x) = if String.eqb k key then json_of_scalar x else None.
Proof.
  unfold property. destruct (json_of_scalar x); simpl; now destruct (String.eqb k key).
Qed.

Lemma later_or_none (o : option json) :
  match o with Some v => Some v | None => None end = o.
Proof. now destruct o. Qed.

Lemma scalar_of_member_property x : scalar_of_member (json_of_scalar x) = Some x.
Proof. now destruct x. Qed.

Lemma token_of_json t : token_of_member (Some (json_of_token t)) = Some t.
Proof.
  destruct t as [i s n d]. unfold json_of_token, token_of_member.
  rewrite !member_app, !member_property.
  cbn -[json_of_scalar scalar_of_member].
  now rewrite !later_or_none, scalar_of_member_property.
Qed.

Lemma entry_of_json_of_entry e : entry_of_json (json_of_entry e) = Some e.
Proof.
  destruct e as [|p]; [reflexivity|]. destruct p as [i t0 t1 fee liq vol txs tvl].
  pose proof (token_of_json t0) as Ht0. pose proof (token_of_json t1) as Ht1.
  unfold json_of_entry, json_of_pool, entry_of_json, pool_of_members.
  rewrite !member_app, !member_property.
  cbn -[json_of_scalar scalar_of_member json_of_token token_of_member].
  rewrite !later_or_none, !scalar_of_member_property, Ht0, Ht1. reflexivity.
Qed.

Lemma cached_of_document pools :
  cached_of_json (JsonArray (map json_of_entry pools)) = Some (CArray pools).
Proof.
  unfold cached_of_json.
  assert (mapM entry_of_json (map json_of_entry pools) = Some pools) as ->; [|done].
  induction pools as [|e pools IH]; [done|].
  cbn [map mapM]. now rewrite entry_of_json_of_entry, IH.
Qed.

(** Going through the file is the same on a pool and on its JSON value. *)
Lemma reread_property k x :
  map (fun m : string * json => let '(key, value) := m in (key, reread value))
    (property k x)
  = property k (reread_scalar x).
Proof.
  destruct x as [| | b | x | s]; try reflexivity.
  unfold property. simpl. unfold reread_number. now destruct (is_finite x).
Qed.

Lemma reread_json_of_token t : reread (json_of_token t) = json_of_token (reread_token t).
Proof.
  unfold json_of_token. cbn [reread]. now rewrite map_app, reread_property.
Qed.

Lemma reread_json_of_entry e : reread (json_of_entry e) = json_of_entry (reread_entry e).
Proof.
  destruct e as [|p]; [reflexivity|]. unfold json_of_entry, json_of_pool.
  cbn [reread]. rewrite !map_app, !reread_property. cbn [map].
  now rewrite !reread_json_of_token.
Qed.

Lemma property_printable k x :
  scalar_printable x ->
  Forall printable
    (flat_map (fun m : string * json => let '(_, value) := m in numbers value)
       (property k x)).
Proof. destruct x; simpl; auto. Qed.

Lemma entry_numbers_printable e :
  entry_printable e -> Forall printable (numbers (json_of_entry e)).
Proof.
  destruct e as [|p]; [constructor|]. unfold entry_printable, scalars.
  rewrite !Forall_cons. intros (Hd0 & Hd1 & Hfee & Hliq & Hvol & Htxs & Htvl & _).
  unfold json_of_entry, json_of_pool, json_of_token. cbn [numbers].
  rewrite !flat_map_app. cbn [flat_map numbers]. rewrite !flat_map_app.
  cbn [flat_map numbers app]. rewrite !app_nil_r.
  repeat apply Forall_app_2; now apply property_printable.
Qed.

Lemma reread_scalar_survives x : scalar_survives x -> reread_scalar x = x.
Proof. destruct x as [| | b | x | s]; try done. simpl. now intros [-> ->]. Qed.

Lemma reread_entry_survives e : entry_survives e -> reread_entry e = e.
Proof.
  destruct e as [|p]; [done|]. unfold entry_survives, scalars.
  rewrite !Forall_cons. intros (Hd0 & Hd1 & Hfee & Hliq & Hvol & Htxs & Htvl & _).
  destruct p as [i [i0 s0 n0 d0] [i1 s1 n1 d1] fee liq vol txs tvl].
  unfold reread_entry, reread_pool, reread_token. simpl in *.
  now rewrite !reread_scalar_survives.
Qed.

(** A list whose numbers all survive is read back as it is. *)
Lemma reread_survivors pools :
  Forall entry_survives pools -> map reread_entry pools = pools.
Proof.
  induction 1 as [|e pools He _ IH]; [done|].
  cbn [map]. now rewrite reread_entry_survives, IH.
Qed.

Variable beyond : string -> result cached.

(** What [JSON.stringify] has written, [JSON.parse] reads as the list of
    the same pools, each with its numbers as their decimal forms read. *)
Lemma parse_stringify pools :
  Forall entry_printable pools ->
  parse beyond (stringify pools) = Return (CArray (map reread_entry pools)).
Proof.
  intros Hpools.
  assert (Forall printable (numbers (JsonArray (map json_of_entry pools))))
    as Hnumbers.
  { cbn [numbers]. induction Hpools as [|e pools He _ IH]; [constructor|].
    cbn [map flat_map]. apply Forall_app_2; [|done].
    now apply entry_numbers_printable. }
  unfold parse, stringify. rewrite list_ascii_of_string_of_list_ascii.
  pose proof (lex_serialize _ [] eq_refl Hnumbers [] I) as Hlex.
  rewrite app_nil_r in Hlex. rewrite Hlex.
  cbn [lex_from lex_end]. rewrite emit_lexemes.
  rewrite parse_lexemes. cbn [feed parse_from reread].
  rewrite map_map.
  rewrite (map_ext _ (fun e => json_of_entry (reread_entry e)))
    by apply reread_json_of_entry.
  rewrite <- (map_map reread_entry json_of_entry).
  now rewrite cached_of_document.
Qed.

End Codec.

Section RoundTrip.
Context `{!NumberParser, !NumberPrinter}.
Variable beyond : string -> result cached.
Variable CACHE_FILE : string.

Local Abbreviation codec := (engine_codec beyond).

(** C8: with the codec of the engine, once the write of the save is
    carried out, loading returns as many records as were saved, in the
    same order, each with every field as it was, but for its numbers,
    which come back as their decimal forms read (a number that is not
    finite comes back as [null]); a list whose numbers all survive that
    comes back as it is.  The file then holds the serialization of that
    list alone, whatever was saved before, and saving never raises. *)
Theorem cache_round_trip (fs : gmap string node) (pools : list entry) :
  (writeFileSync fs CACHE_FILE (@JSON_stringify codec pools)).2 = Return () ->
  Forall entry_printable pools ->
  @loadFromCache codec CACHE_FILE (@saveToCache codec CACHE_FILE fs pools).1
  = Return (CArray (map reread_entry pools))
  /\ (Forall entry_survives pools ->
      @loadFromCache codec CACHE_FILE (@saveToCache codec CACHE_FILE fs pools).1
      = Return (CArray pools))
  /\ (@saveToCache codec CACHE_FILE fs pools).1
     = <[ CACHE_FILE := File (@JSON_stringify codec pools) ]> fs
  /\ (@saveToCache codec CACHE_FILE fs pools).2 = Return ()
  /\ (forall prior,
        (@saveToCache codec CACHE_FILE
           (@saveToCache codec CACHE_FILE fs prior).1 pools).1
        = (@saveToCache codec CACHE_FILE fs pools).1).
Proof.
  intros Hwritten Hpools.
  destruct (@saveToCache_written codec CACHE_FILE fs pools Hwritten)
    as [Hsave Hover].
  assert (@loadFromCache codec CACHE_FILE
            (<[ CACHE_FILE := File (@JSON_stringify codec pools) ]> fs)
          = Return (CArray (map reread_entry pools))) as Hload.
  { unfold loadFromCache, existsSync, readFileSync.
    rewrite lookup_insert_eq. simpl.
    now rewrite (parse_stringify beyond pools Hpools). }
  rewrite Hsave. cbn [fst snd]. rewrite Hload.
  repeat split; [|apply Hover].
  intros Hsurvive. now rewrite reread_survivors.
Qed.

End RoundTrip.

Lemma cache_round_trip_witness :
  (writeFileSync {[ "cache.json" := File "[]" ]} "cache.json"
     (@JSON_stringify natural_codec saved_pools)).2 = Return ()
  /\ Forall (@entry_printable natural_printer) saved_pools
  /\ Forall (@entry_survives natural_parser natural_printer) saved_pools
  /\ @loadFromCache natural_codec "cache.json"
       (@saveToCache natural_codec "cache.json"
          {[ "cache.json" := File "[]" ]} saved_pools).1
     = Return (CArray saved_pools).
Proof.
  assert ((writeFileSync {[ "cache.json" := File "[]" ]} "cache.json"
             (@JSON_stringify natural_codec saved_pools)).2 = Return ())
    as Hwritten by reflexivity.
  assert (Forall (@entry_printable natural_printer) saved_pools) as Hprintable.
  { repeat constructor; intros _; vm_compute; reflexivity. }
  assert (Forall (@entry_survives natural_parser natural_printer) saved_pools)
    as Hsurvive.
  { repeat constructor; vm_compute; reflexivity. }
  split; [exact Hwritten|]. split; [exact Hprintable|]. split; [exact Hsurvive|].
  now apply (@cache_round_trip natural_parser natural_printer
               (fun _ => Throw (Error "not a list of pools")) "cache.json"
               {[ "cache.json" := File "[]" ]} saved_pools Hwritten Hprintable).
Defined.

(** C9 (the code departs from it): on [null] the filter raises instead of
    returning [false], and the filtering of a loaded cache raises on its
    first entry, [null] or not, because the name it calls is bound nowhere;
    with the filter bound under that name a [null] entry would still raise. *)
Theorem filter_on_null_raises `{!NumberParser} :
  isPoolSignificant ENull
  = Throw (TypeError "Cannot read properties of null (reading 'totalValueLockedUSD')")
  /\ (forall x rest,
        revalidate module_scope (CArray (x :: rest))
        = Throw (ReferenceError "isSignificantPool"))
  /\ (forall rest,
        revalidate aliased_scope (CArray (ENull :: rest))
        = Throw (TypeError "Cannot read properties of null (reading 'totalValueLockedUSD')")).
Proof.
  split; [reflexivity|]. split.
  - intros x rest. unfold revalidate. simpl. unfold call_ident.
    now rewrite module_scope_unbound.
  - intros rest. unfold revalidate. simpl. unfold call_ident.
    now rewrite aliased_scope_bound.
Qed.

(** * Beyond the claims *)

Set Warnings "-clear-no-such-hyp".

(** ** The price lookup *)

Lemma batch_count_spec n k : k < batch_count n <-> k * 10 < n.
Proof.
  unfold batch_count.
  pose proof (Nat.div_mod_eq (n + 9) 10) as Hdiv.
  pose proof (Nat.mod_upper_bound (n + 9) 10) as Hmod. lia.
Qed.

(** Merging a list of maps one after the other, the later winning. *)
Lemma union_list_snoc (l : list (gmap string quote)) d acc :
  ⋃ (l ++ [d]) ∪ acc = ⋃ l ∪ (d ∪ acc).
Proof.
  induction l as [|a l IH]; simpl.
  - now rewrite (right_id_L ∅ (∪)), (left_id_L ∅ (∪)).
  - now rewrite <- !(assoc_L (∪)), IH.
Qed.

Section PriceLookup.
Context `{!StringLib}.
Variable endpoint : string.
Variable get : price_service.
Variable tokenIds : list string.

Abbreviation loop := (PriceFetcher.batch_loop endpoint get tokenIds).
Abbreviation url := (nth_url endpoint tokenIds).

(** The loop from batch [k] on, when the service resolves the requests
    [k], [k + 1], ... with [datas] and these are all the batches left. *)
Lemma batch_loop_resolved datas fuel k requested acc :
  length requested = k ->
  k + length datas = batch_count (length tokenIds) ->
  (forall j d, datas !! j = Some d -> get (k + j) (url (k + j)) = PriceResolves d) ->
  length datas <= fuel ->
  loop fuel (k * PriceFetcher.batchSize) requested acc
  = Some ((requested ++ (url <$> seq k (length datas)))%list,
          Return (⋃ (reverse datas) ∪ acc)).
Proof.
  revert fuel k requested acc.
  induction datas as [|d datas IH]; intros fuel k requested acc Hk Hn Hget Hfuel.
  - assert (~ k * 10 < length tokenIds) as Hend
      by (rewrite <- batch_count_spec; simpl in Hn; lia).
    destruct fuel; simpl;
      (destruct (Nat.ltb_spec (k * PriceFetcher.batchSize) (length tokenIds))
        as [Hlt|_]; [unfold PriceFetcher.batchSize in Hlt; lia|]);
      now rewrite app_nil_r, (left_id_L ∅ (∪)).
  - assert (k * 10 < length tokenIds) as Hmore
      by (rewrite <- batch_count_spec; simpl in Hn; lia).
    destruct fuel as [|fuel]; [simpl in Hfuel; lia|]. simpl.
    destruct (Nat.ltb_spec (k * PriceFetcher.batchSize) (length tokenIds))
      as [_|Hge]; [|unfold PriceFetcher.batchSize in Hge; lia].
    specialize (Hget 0 d eq_refl) as Hfirst.
    rewrite Nat.add_0_r in Hfirst. unfold nth_url in Hfirst.
    rewrite Hk, Hfirst.
    replace (k * PriceFetcher.batchSize + PriceFetcher.batchSize)
      with (S k * PriceFetcher.batchSize) by lia.
    rewrite IH.
    + f_equal. f_equal.
      * now rewrite <- app_assoc.
      * now rewrite reverse_cons, union_list_snoc.
    + rewrite length_app. simpl. lia.
    + simpl in Hn. lia.
    + intros j d' Hj. replace (S k + j) with (k + S j) by lia. now apply Hget.
    + simpl in Hfuel. lia.
Qed.

(** The same when the request after [datas] is rejected. *)
Lemma batch_loop_rejected datas e fuel k requested acc :
  length requested = k ->
  k + length datas < batch_count (length tokenIds) ->
  (forall j d, datas !! j = Some d -> get (k + j) (url (k + j)) = PriceResolves d) ->
  get (k + length datas) (url (k + length datas)) = PriceRejects e ->
  length datas < fuel ->
  loop fuel (k * PriceFetcher.batchSize) requested acc
  = Some ((requested ++ (url <$> seq k (S (length datas))))%list, Throw e).
Proof.
  revert fuel k requested acc.
  induction datas as [|d datas IH];
    intros fuel k requested acc Hk Hn Hget Hrej Hfuel;
    (assert (k * 10 < length tokenIds) as Hmore
       by (rewrite <- batch_count_spec; simpl in Hn; lia));
    (destruct fuel as [|fuel]; [simpl in Hfuel; lia|]); simpl;
    (destruct (Nat.ltb_spec (k * PriceFetcher.batchSize) (length tokenIds))
      as [_|Hge]; [|unfold PriceFetcher.batchSize in Hge; lia]).
  - simpl in Hrej. rewrite Nat.add_0_r in Hrej. unfold nth_url in Hrej.
    now rewrite Hk, Hrej.
  - specialize (Hget 0 d eq_refl) as Hfirst.
    rewrite Nat.add_0_r in Hfirst. unfold nth_url in Hfirst.
    rewrite Hk, Hfirst.
    replace (k * PriceFetcher.batchSize + PriceFetcher.batchSize)
      with (S k * PriceFetcher.batchSize) by lia.
    rewrite IH.
    + now rewrite <- app_assoc.
    + rewrite length_app. simpl. lia.
    + simpl in Hn. lia.
    + intros j d' Hj. replace (S k + j) with (k + S j) by lia. now apply Hget.
    + simpl in Hrej. now replace (S k + length datas) with (k + S (length datas)) by lia.
    + simpl in Hfuel. lia.
Qed.

(** Whatever the service answers, the loop ends within the batches that
    are left. *)
Lemma batch_loop_ends fuel k requested acc :
  batch_count (length tokenIds) <= k + fuel ->
  exists requested' outcome,
    loop fuel (k * PriceFetcher.batchSize) requested acc = Some (requested', outcome)
    /\ length requested' <= length requested + (batch_count (length tokenIds) - k).
Proof.
  revert k requested acc. induction fuel as [|fuel IH]; intros k requested acc Hfuel.
  - assert (~ k * 10 < length tokenIds) as Hend
      by (rewrite <- batch_count_spec; lia).
    simpl. destruct (Nat.ltb_spec (k * PriceFetcher.batchSize) (length tokenIds))
      as [Hlt|_]; [unfold PriceFetcher.batchSize in Hlt; lia|].
    eexists _, _. split; [done|lia].
  - simpl. destruct (Nat.ltb_spec (k * PriceFetcher.batchSize) (length tokenIds))
      as [Hlt|_]; [|eexists _, _; split; [done|lia]].
    assert (k < batch_count (length tokenIds)) as Hk
      by (rewrite batch_count_spec; unfold PriceFetcher.batchSize in Hlt; lia).
    destruct (get _ _) as [e|data].
    + eexists _, _. split; [done|]. rewrite length_app. simpl. lia.
    + replace (k * PriceFetcher.batchSize + PriceFetcher.batchSize)
        with (S k * PriceFetcher.batchSize) by lia.
      destruct (IH (S k) (requested ++ [PriceFetcher.url_of endpoint
                   (PriceFetcher.batch_at tokenIds (k * PriceFetcher.batchSize))])%list
                  (data ∪ acc)) as (requested' & outcome & -> & Hlen); [lia|].
      eexists _, _. split; [done|]. rewrite length_app in Hlen. simpl in Hlen. lia.
Qed.

End PriceLookup.

(** In a merge where the earlier map wins, a key is read from the first
    map that has it. *)
Lemma lookup_union_list_first (front : list (gmap string quote)) d back key :
  Forall (fun d' => d' !! key = None) front ->
  (⋃ (front ++ d :: back)) !! key = (d ∪ ⋃ back) !! key.
Proof.
  induction 1 as [|a front Ha _ IH]; [done|].
  simpl. now rewrite lookup_union_r.
Qed.

Lemma lookup_union_list_None (l : list (gmap string quote)) key :
  Forall (fun d => d !! key = None) l -> (⋃ l) !! key = None.
Proof.
  induction 1 as [|a l Ha _ IH]; [done|].
  simpl. now rewrite lookup_union_r.
Qed.

Section PriceFacts.
Context `{!StringLib}.
Variable endpoint : string.
Variable get : price_service.
Variable tokenIds : list string.

Abbreviation url := (nth_url endpoint tokenIds).

(** X3: when the price service resolves every request, [fetchTokenPrices]
    sends one request per batch of ten addresses, in order, the [k]-th for
    the addresses [10 k] to [10 k + 9] joined by commas and lower-cased;
    that is [batch_count] requests for the whole list. *)
Theorem fetchTokenPrices_requests datas fuel :
  length datas = batch_count (length tokenIds) ->
  (forall k d, datas !! k = Some d -> get k (url k) = PriceResolves d) ->
  length datas <= fuel ->
  exists prices,
    PriceFetcher.fetchTokenPrices endpoint get tokenIds fuel
    = Some (url <$> seq 0 (batch_count (length tokenIds)), Return prices).
Proof.
  intros Hlen Hget Hfuel. unfold PriceFetcher.fetchTokenPrices.
  change 0 with (0 * PriceFetcher.batchSize) at 1.
  rewrite (batch_loop_resolved endpoint get tokenIds datas fuel 0 [] ∅);
    [|done|done|done|done].
  rewrite Hlen. simpl. eauto.
Qed.

(** X4: when the price service resolves every request, the object
    returned holds, for each address, the quote of the last answer that
    has it (a later batch overwrites an earlier one), and nothing for an
    address no answer has. *)
Theorem fetchTokenPrices_last_wins datas fuel :
  length datas = batch_count (length tokenIds) ->
  (forall k d, datas !! k = Some d -> get k (url k) = PriceResolves d) ->
  length datas <= fuel ->
  exists requested prices,
    PriceFetcher.fetchTokenPrices endpoint get tokenIds fuel
    = Some (requested, Return prices)
    /\ (forall key k d q,
          datas !! k = Some d -> d !! key = Some q ->
          (forall j d', k < j -> datas !! j = Some d' -> d' !! key = None) ->
          prices !! key = Some q)
    /\ (forall key,
          (forall k d, datas !! k = Some d -> d !! key = None) ->
          prices !! key = None).
Proof.
  intros Hlen Hget Hfuel. unfold PriceFetcher.fetchTokenPrices.
  change 0 with (0 * PriceFetcher.batchSize) at 1.
  rewrite (batch_loop_resolved endpoint get tokenIds datas fuel 0 [] ∅);
    [|done|done|done|done].
  eexists _, _. split; [reflexivity|]. rewrite (right_id_L ∅ (∪)). split.
  - intros key k d q Hk Hq Hlater.
    rewrite <- (take_drop_middle datas k d Hk).
    rewrite reverse_app, reverse_cons, <- app_assoc. simpl.
    rewrite lookup_union_list_first.
    + now apply lookup_union_Some_l.
    + apply Forall_reverse, Forall_forall. intros d' Hd'.
      apply list_elem_of_lookup in Hd' as [j Hj].
      rewrite lookup_drop in Hj. apply (Hlater (S k + j)); [lia|done].
  - intros key Hnone. apply lookup_union_list_None, Forall_reverse, Forall_forall.
    intros d Hd. apply list_elem_of_lookup in Hd as [k Hk]. eauto.
Qed.

(** X5: when a request is rejected, the ones before it having resolved,
    [fetchTokenPrices] sends nothing more and returns an empty object: the
    quotes already received are dropped, and the caller sees no error. *)
Theorem fetchTokenPrices_rejected datas e fuel :
  length datas < batch_count (length tokenIds) ->
  (forall k d, datas !! k = Some d -> get k (url k) = PriceResolves d) ->
  get (length datas) (url (length datas)) = PriceRejects e ->
  length datas < fuel ->
  PriceFetcher.fetchTokenPrices endpoint get tokenIds fuel
  = Some (url <$> seq 0 (S (length datas)), Return ∅).
Proof.
  intros Hlen Hget Hrej Hfuel. unfold PriceFetcher.fetchTokenPrices.
  change 0 with (0 * PriceFetcher.batchSize) at 1.
  now rewrite (batch_loop_rejected endpoint get tokenIds datas e fuel 0 [] ∅).
Qed.

(** X6: whatever the price service answers, [fetchTokenPrices] returns
    normally after at most [batch_count] requests, given that much fuel;
    for an empty list it sends none. *)
Theorem fetchTokenPrices_returns fuel :
  batch_count (length tokenIds) <= fuel ->
  exists requested prices,
    PriceFetcher.fetchTokenPrices endpoint get tokenIds fuel
    = Some (requested, Return prices)
    /\ length requested <= batch_count (length tokenIds)
    /\ (tokenIds = [] -> requested = [] /\ prices = ∅).
Proof.
  intros Hfuel. unfold PriceFetcher.fetchTokenPrices.
  change 0 with (0 * PriceFetcher.batchSize) at 1.
  destruct (batch_loop_ends endpoint get tokenIds fuel 0 [] ∅)
    as (requested & outcome & Hloop & Hlen); [lia|].
  rewrite Hloop. exists requested.
  exists (match outcome with Return prices => prices | Throw _ => ∅ end).
  split; [now destruct outcome|]. split; [simpl in Hlen; lia|].
  intros ->. destruct fuel; simpl in Hloop; injection Hloop as <- <-; done.
Qed.

End PriceFacts.

Lemma fetchTokenPrices_requests_witness :
  exists prices,
    @PriceFetcher.fetchTokenPrices example_strings "https://prices.example/api"
      two_answers eleven_tokens 2
    = Some (["https://prices.example/api?contract_addresses=0xa0,0xa1,0xa2,0xa3,0xa4,0xa5,0xa6,0xa7,0xa8,0xa9&vs_currencies=usd";
             "https://prices.example/api?contract_addresses=0xaa&vs_currencies=usd"],
            Return prices).
Proof.
  apply (@fetchTokenPrices_requests example_strings "https://prices.example/api"
           two_answers eleven_tokens [first_answer; second_answer] 2);
    [reflexivity | | simpl; lia].
  intros [|[|k]] d [= <-]; reflexivity.
Defined.

Lemma fetchTokenPrices_last_wins_witness :
  exists requested prices,
    @PriceFetcher.fetchTokenPrices example_strings "https://prices.example/api"
      two_answers eleven_tokens 2
    = Some (requested, Return prices)
    /\ prices !! "0xa0" = Some (mkQuote (JNumber 3))
    /\ prices !! "0xa1" = Some (mkQuote (JNumber 2000))
    /\ prices !! "0xa2" = None.
Proof.
  destruct (@fetchTokenPrices_last_wins example_strings "https://prices.example/api"
              two_answers eleven_tokens [first_answer; second_answer] 2)
    as (requested & prices & Hrun & Hlast & Hnone);
    [reflexivity | | simpl; lia |].
  { intros [|[|k]] d [= <-]; reflexivity. }
  exists requested, prices. split; [exact Hrun|]. split; [|split].
  - apply (Hlast "0xa0" 1 second_answer); [reflexivity | reflexivity |].
    intros [|[|j]] d' Hj; [lia | lia | discriminate].
  - apply (Hlast "0xa1" 0 first_answer); [reflexivity | reflexivity |].
    intros [|[|j]] d' Hj [= <-]; [lia | reflexivity].
  - apply Hnone. intros [|[|k]] d [= <-]; reflexivity.
Defined.

Lemma fetchTokenPrices_rejected_witness :
  @PriceFetcher.fetchTokenPrices example_strings "https://prices.example/api"
    answer_then_failure eleven_tokens 2
  = Some (["https://prices.example/api?contract_addresses=0xa0,0xa1,0xa2,0xa3,0xa4,0xa5,0xa6,0xa7,0xa8,0xa9&vs_currencies=usd";
           "https://prices.example/api?contract_addresses=0xaa&vs_currencies=usd"],
          Return ∅).
Proof.
  apply (@fetchTokenPrices_rejected example_strings "https://prices.example/api"
           answer_then_failure eleven_tokens [first_answer]
           (Error "Request failed with status code 429") 2);
    [vm_compute; lia | | reflexivity | simpl; lia].
  intros [|k] d [= <-]; reflexivity.
Defined.

Lemma fetchTokenPrices_returns_witness :
  batch_count (length eleven_tokens) <= 2
  /\ exists requested prices,
       @PriceFetcher.fetchTokenPrices example_strings "https://prices.example/api"
         answer_then_failure eleven_tokens 2
       = Some (requested, Return prices)
       /\ length requested <= 2.
Proof.
  assert (batch_count (length eleven_tokens) <= 2) as Hfuel by (vm_compute; lia).
  split; [exact Hfuel|].
  destruct (@fetchTokenPrices_returns example_strings "https://prices.example/api"
              answer_then_failure eleven_tokens 2 Hfuel)
    as (requested & prices & Hrun & Hlen & _).
  exists requested, prices. split; [exact Hrun|exact Hlen].
Defined.

(** ** The pool fetcher, in any scope *)

Lemma page_count_spec limit k : k < page_count limit <-> k * 50 < limit.
Proof.
  unfold page_count.
  pose proof (Nat.div_mod_eq (limit + 49) 50) as Hdiv.
  pose proof (Nat.mod_upper_bound (limit + 49) 50) as Hmod. lia.
Qed.

Section FetcherInvariants.
Variable sc : scope.
Variable request : service.
Variable limit : nat.

(** One page keeps the invariant, when it comes from the service and there
    is room left. *)
Lemma process_page_fetched_well pools st :
  (forall e, e ∈ pools -> exists n q pools',
      request n q = Resolves (Some pools') /\ e ∈ pools') ->
  length (allPools st) < limit ->
  fetched_well sc request limit st ->
  fetched_well sc request limit (process_page sc limit pools st).1.
Proof.
  revert st. induction pools as [|pool rest IH]; intros st Hfrom Hroom Hst; [done|].
  destruct Hst as (Hsub & Hkept & Hall & Hlen).
  assert (fetched_well sc request limit (push_all pool st)) as Hpush.
  { repeat split; simpl.
    - now apply sublist_inserts_r.
    - done.
    - apply Forall_app. split; [done|]. apply Forall_singleton, Hfrom. set_solver.
    - rewrite length_app. simpl. lia. }
  simpl. destruct pool as [|p]; [done|].
  destruct (call_ident sc "isSignificantPool" (EPool p)) as [b|e] eqn:Hcall; [|done].
  set (st1 := if b && _ then _ else _).
  assert (fetched_well sc request limit st1
          /\ length (allPools st1) = length (allPools st) + 1) as [Hst1 Hlen1].
  { unfold st1. destruct (b && _) eqn:Hb; simpl.
    - split; [|rewrite length_app; simpl; lia].
      apply andb_prop in Hb as [-> _]. repeat split; simpl.
      + now apply sublist_app.
      + apply Forall_app. split; [done|]. apply Forall_singleton. eauto.
      + apply Forall_app. split; [done|]. apply Forall_singleton, Hfrom. set_solver.
      + rewrite length_app. simpl. lia.
    - split; [exact Hpush|]. rewrite length_app. simpl. lia. }
  destruct (Nat.leb_spec limit (length (allPools st1))) as [Hfull|Hmore].
  - simpl. destruct Hst1 as (? & ? & ? & ?). now repeat split.
  - apply IH; [|done|done]. intros e He. apply Hfrom. set_solver.
Qed.

Lemma pagination_loop_fetched_well fuel st st' outcome :
  fetched_well sc request limit st ->
  pagination_loop sc request limit fuel st = Some (st', outcome) ->
  fetched_well sc request limit st'.
Proof.
  revert st. induction fuel as [|fuel IH]; intros st Hst; simpl.
  - case_match; [done|]. now intros [= <- <-].
  - destruct (fetchMore st); simpl; [|now intros [= <- <-]].
    destruct (Nat.ltb_spec (length (allPools st)) limit) as [Hroom|];
      [|now intros [= <- <-]].
    destruct (request (requests st) _) as [e|[pools|]] eqn:Hreq;
      [now intros [= <- <-]| |now intros [= <- <-]].
    pose proof (process_page_fetched_well pools (sent st)) as Hpage.
    destruct (process_page sc limit pools (sent st)) as [st1 [[]|e]];
      simpl in Hpage.
    + intros Hrun. apply IH in Hrun; [done|].
      assert (fetched_well sc request limit st1) as (? & ? & ? & ?)
        by (apply Hpage; eauto).
      now case_match.
    + intros [= <- <-]. apply Hpage; eauto.
Qed.

(** X7: in any scope, every entry [fetchAllPools] returns is a pool that
    was on a page the service resolved and for which the filter call
    returned [true], and the array returned has at most [limit] entries. *)
Theorem fetchAllPools_in_sound fuel l :
  fetchAllPools_in sc request limit fuel = Some (Return l) ->
  length l <= limit
  /\ forall e, e ∈ l ->
       (exists p, e = EPool p)
       /\ call_ident sc "isSignificantPool" e = Return true
       /\ exists n q pools, request n q = Resolves (Some pools) /\ e ∈ pools.
Proof.
  unfold fetchAllPools_in.
  destruct (pagination_loop _ _ _ _ _) as [[st outcome]|] eqn:Hrun; [|done].
  apply pagination_loop_fetched_well in Hrun as (Hsub & Hkept & Hall & Hlen).
  - intros Hl. assert (l = significantPools st) as ->
      by (destruct outcome; now injection Hl).
    split; [apply sublist_length in Hsub; lia|].
    intros e He. rewrite Forall_forall in Hkept, Hall.
    destruct (Hkept e He) as [Hpool Hcall]. repeat split; [done..|].
    apply Hall. now apply (elem_of_sublist _ _ _ He Hsub).
  - repeat split; simpl; [done | constructor | constructor | lia].
Qed.

(** A page sends no request. *)
Lemma process_page_requests pools st :
  requests (process_page sc limit pools st).1 = requests st.
Proof.
  revert st. induction pools as [|[|p] rest IH]; intros st; simpl; [done..|].
  destruct (call_ident sc "isSignificantPool" (EPool p)) as [b|e]; [|done].
  set (st1 := if b && _ then _ else _).
  assert (requests st1 = requests st) as Hst1 by (unfold st1; now case_match).
  case_match; [done|]. now rewrite IH.
Qed.

(** While the loop goes on, every request sent has brought a full page. *)
Lemma pagination_loop_requests fuel st st' outcome :
  requests st * batchSize <= length (allPools st) ->
  pagination_loop sc request limit fuel st = Some (st', outcome) ->
  requests st' <= Nat.max (requests st) (page_count limit).
Proof.
  revert st. induction fuel as [|fuel IH]; intros st Hst; simpl.
  - case_match; [done|]. intros [= <- <-]. lia.
  - destruct (fetchMore st); simpl; [|intros [= <- <-]; lia].
    destruct (Nat.ltb_spec (length (allPools st)) limit) as [Hroom|];
      [|intros [= <- <-]; lia].
    assert (requests st < page_count limit) as Hcount
      by (rewrite page_count_spec; unfold batchSize in Hst; lia).
    destruct (request (requests st) _) as [e|[pools|]];
      [intros [= <- <-]; simpl; lia| |intros [= <- <-]; simpl; lia].
    pose proof (process_page_grows sc limit pools (sent st)) as Hgrows.
    pose proof (process_page_requests pools (sent st)) as Hreq.
    destruct (process_page sc limit pools (sent st)) as [st1 [[]|e]];
      simpl in Hreq; [|intros [= <- <-]; lia].
    destruct (Hgrows st1 eq_refl) as [Hstop | [Hmore Hlen]].
    + intros Hrun.
      assert (fetchMore (if (length pools <? batchSize)%nat then stop st1 else st1)
              = false) as Hend by now case_match.
      destruct fuel; simpl in Hrun; rewrite Hend in Hrun; simpl in Hrun;
        injection Hrun as <- <-; case_match; simpl; lia.
    + destruct (Nat.ltb_spec (length pools) batchSize) as [Hshort|Hfull].
      * intros Hrun. destruct fuel; simpl in Hrun; injection Hrun as <- <-;
          simpl; lia.
      * intros Hrun. apply IH in Hrun; [lia|]. simpl in Hlen. lia.
Qed.

(** X8: whatever the service answers, [fetchAllPools] sends at most
    [page_count limit] requests, one per fifty pools of the limit. *)
Theorem fetchAllPools_requests_bound fuel st outcome :
  pagination_loop sc request limit fuel fetch_init = Some (st, outcome) ->
  requests st <= page_count limit.
Proof.
  intros Hrun. apply pagination_loop_requests in Hrun; simpl in *; lia.
Qed.

End FetcherInvariants.

Lemma fetchAllPools_in_sound_witness :
  fetchAllPools_in (@aliased_scope example_parser) two_pages 100 100
  = Some (Return [EPool pool_a])
  /\ length [EPool pool_a] <= 100.
Proof.
  assert (fetchAllPools_in (@aliased_scope example_parser) two_pages 100 100
          = Some (Return [EPool pool_a])) as Hrun by (vm_compute; reflexivity).
  split; [exact Hrun|].
  apply (fetchAllPools_in_sound _ _ _ _ _ Hrun).
Defined.

Lemma fetchAllPools_requests_bound_witness :
  exists st outcome,
    pagination_loop (@aliased_scope example_parser) two_pages 100 5 fetch_init
    = Some (st, outcome)
    /\ requests st = 2
    /\ requests st <= page_count 100.
Proof.
  eexists _, _. split; [vm_compute; reflexivity|]. split; [reflexivity|].
  eapply (fetchAllPools_requests_bound (@aliased_scope example_parser) two_pages 100 5).
  vm_compute. reflexivity.
Defined.

(** ** The orchestrator *)

Lemma saveToCache_returns `{!JsonCodec} CACHE_FILE fs pools :
  (saveToCache CACHE_FILE fs pools).2 = Return ().
Proof.
  unfold saveToCache, writeFileSync.
  now destruct (fs !! CACHE_FILE) as [[?|?|? ?|?]|].
Qed.

Lemma fetchAllPools_in_unbound sc request limit fuel :
  sc !! "isSignificantPool" = None ->
  limit <= fuel ->
  fetchAllPools_in sc request limit fuel = Some (Return []).
Proof.
  intros Hsc Hfuel. unfold fetchAllPools_in.
  destruct (pagination_loop_terminates sc request limit fuel fetch_init)
    as [[st outcome] Hrun]; [simpl; lia|].
  rewrite Hrun. apply pagination_loop_unbound in Hrun; [|done].
  rewrite Hrun. now destruct outcome.
Qed.

Lemma fetchAllPools_in_pools sc request limit fuel l :
  fetchAllPools_in sc request limit fuel = Some (Return l) ->
  Forall (fun e => exists p, e = EPool p) l.
Proof.
  unfold fetchAllPools_in.
  destruct (pagination_loop _ _ _ _ _) as [[st outcome]|] eqn:Hrun; [|done].
  apply (pagination_loop_fetched_well sc request limit) in Hrun
    as (_ & Hkept & _ & _).
  - intros Hl. assert (l = significantPools st) as ->
      by (destruct outcome; now injection Hl).
    eapply Forall_impl; [exact Hkept|]. now intros e [? _].
  - repeat split; simpl; [done | constructor | constructor | lia].
Qed.

(** A filter that rejects every entry leaves nothing. *)
Lemma Array_filter_none f l :
  Forall (fun e => f e = Return false) l -> Array_filter f l = Return [].
Proof.
  induction 1 as [|x l Hx _ IH]; [done|]. simpl. now rewrite Hx, IH.
Qed.

Section OrchestratorFacts.
Context `{!NumberParser, !MathLib, !StringLib, !JsonCodec, !ReportCodec}.
Variable CACHE_FILE : string.
Variable COINGECKO_API_URL : string.

(** Without a quote, the price reads as 0 and the pool is skipped. *)
Lemma enrich_no_quotes p : enrich ∅ (EPool p) = Return None.
Proof.
  unfold enrich, price_of. rewrite !lookup_empty. reflexivity.
Qed.

Lemma Array_map_enrich_no_quotes l :
  Forall (fun e => exists p, e = EPool p) l ->
  Array_map (enrich ∅) l = Return (replicate (length l) None).
Proof.
  induction 1 as [|e l [p ->] _ IH]; [done|].
  cbn [Array_map]. rewrite enrich_no_quotes. cbn. now rewrite IH.
Qed.

Lemma token_ids_pools l :
  Forall (fun e => exists p, e = EPool p) l ->
  exists ids, token_ids l = Return ids /\ length ids = 2 * length l.
Proof.
  induction 1 as [|e l [p ->] _ (ids & IH & Hlen)]; [now exists []|].
  simpl. rewrite IH. simpl. eexists. split; [done|]. simpl. lia.
Qed.

(** X9: in [app.js] as written, a run on live data (asked for, or fallen
    back to because the cache gives nothing) calls [fetchAllPools], saves
    the empty array and stops there: no price is asked for, and the
    [catch] block of the function is not entered.  When the write of the
    save is carried out, the cache file holds the empty array alone; when
    it is refused, every file is as it was. *)
Theorem live_run_empties_cache request get limit useCache fuel fs :
  limit <= fuel ->
  (useCache = true ->
   loadFromCache CACHE_FILE fs = Return CNull
   \/ loadFromCache CACHE_FILE fs = Return (CArray [])) ->
  fetchPoolsPricesAndAPR CACHE_FILE COINGECKO_API_URL request get limit useCache fuel fs
  = Some (mkRun (saveToCache CACHE_FILE fs []).1 true [] None)
  /\ ((writeFileSync fs CACHE_FILE (JSON_stringify [])).2 = Return () ->
      (saveToCache CACHE_FILE fs []).1
      = <[ CACHE_FILE := File (JSON_stringify []) ]> fs)
  /\ (forall e, (writeFileSync fs CACHE_FILE (JSON_stringify [])).2 = Throw e ->
      (saveToCache CACHE_FILE fs []).1 = fs).
Proof.
  intros Hfuel Hcache. split; [|split].
  - unfold fetchPoolsPricesAndAPR, fetchPoolsPricesAndAPR_in, gather.
    assert ((if useCache
             then loadFromCache CACHE_FILE fs ≫= fun cachedPools : cached =>
                  revalidate module_scope cachedPools
             else Return None) = Return None) as ->.
    { destruct useCache; [|done]. now destruct Hcache as [-> | ->]. }
    rewrite (fetchAllPools_in_unbound _ _ _ _ module_scope_unbound Hfuel).
    pose proof (saveToCache_returns CACHE_FILE fs []) as Hsaved.
    destruct (saveToCache CACHE_FILE fs []) as [fs' saved]. simpl in *.
    now rewrite Hsaved.
  - intros Hwritten.
    now rewrite (proj1 (saveToCache_written CACHE_FILE fs [] Hwritten)).
  - intros e Hrefused. now rewrite (saveToCache_refused CACHE_FILE fs [] e).
Qed.

(** X10: in [app.js] as written, a run on a cache that holds at least one
    entry changes nothing and asks nothing: the filtering of the cache
    raises on the unbound name, and the [catch] block logs it. *)
Theorem cached_run_does_nothing request get limit fuel fs x rest :
  loadFromCache CACHE_FILE fs = Return (CArray (x :: rest)) ->
  fetchPoolsPricesAndAPR CACHE_FILE COINGECKO_API_URL request get limit true fuel fs
  = Some (mkRun fs false [] (Some (ReferenceError "isSignificantPool"))).
Proof.
  intros Hload.
  unfold fetchPoolsPricesAndAPR, fetchPoolsPricesAndAPR_in, gather.
  rewrite Hload. simpl. unfold call_ident. now rewrite module_scope_unbound.
Qed.

(** X11: in any scope that binds the filter, a cache with entries that
    all fail the filter is not refreshed: no pool and no price is asked
    for and no file is written. *)
Theorem stale_cache_is_not_refreshed sc f request get limit fuel fs x rest :
  sc !! "isSignificantPool" = Some f ->
  loadFromCache CACHE_FILE fs = Return (CArray (x :: rest)) ->
  Forall (fun e => f e = Return false) (x :: rest) ->
  fetchPoolsPricesAndAPR_in CACHE_FILE COINGECKO_API_URL sc request get limit true fuel fs
  = Some (mkRun fs false [] None).
Proof.
  intros Hsc Hload Hstale.
  unfold fetchPoolsPricesAndAPR_in, gather. rewrite Hload. simpl.
  change (call_ident sc "isSignificantPool" x ≫= _)
    with (Array_filter (call_ident sc "isSignificantPool") (x :: rest)).
  rewrite Array_filter_none; [done|].
  eapply Forall_impl; [exact Hstale|]. intros e He. unfold call_ident.
  now rewrite Hsc.
Qed.

(** X12: in any scope, when [fetchAllPools] returns pools, the write of
    their save is carried out and the first price request is rejected,
    every pool is skipped: the snapshot saved in step 3 is overwritten by
    a list of as many [null]s, one price request was sent, and the [catch]
    block of the function is not entered. *)
Theorem failed_prices_fill_cache_with_nulls sc request get limit fuel fs l e :
  fetchAllPools_in sc request limit fuel = Some (Return l) ->
  l <> [] ->
  (forall u, get 0 u = PriceRejects e) ->
  (writeFileSync fs CACHE_FILE (JSON_stringify l)).2 = Return () ->
  exists u,
    fetchPoolsPricesAndAPR_in CACHE_FILE COINGECKO_API_URL sc request get limit false fuel fs
    = Some (mkRun (<[ CACHE_FILE := File (JSON_stringify_report
                                            (replicate (length l) None)) ]> fs)
                  true [u] None).
Proof.
  intros Hfetch Hl Hget Hwritten.
  pose proof (fetchAllPools_in_pools _ _ _ _ _ Hfetch) as Hpools.
  destruct (token_ids_pools l Hpools) as (ids & Hids & Hlen).
  unfold fetchPoolsPricesAndAPR_in, gather. rewrite Hfetch.
  unfold saveToCache, saveReport.
  rewrite (written_insert CACHE_FILE fs _ Hwritten). unfold writeFileSync.
  simpl. destruct l as [|x l]; [done|]. simpl length at 1.
  change (S (length l) =? 0)%nat with false. cbv iota.
  rewrite Hids.
  destruct ids as [|a ids]; [simpl in Hlen; lia|].
  assert (fuel <> 0) as Hfuel.
  { intros ->. unfold fetchAllPools_in in Hfetch. simpl in Hfetch.
    destruct limit; simpl in Hfetch; [|done].
    injection Hfetch as Hnil. discriminate Hnil. }
  destruct fuel as [|fuel]; [done|].
  unfold PriceFetcher.fetchTokenPrices. simpl insertion_order.
  rewrite bool_decide_eq_false_2 by set_solver.
  simpl PriceFetcher.batch_loop. rewrite Hget. simpl.
  pose proof (Array_map_enrich_no_quotes (x :: l) Hpools) as Hmap.
  cbn [Array_map] in Hmap. rewrite Hmap.
  rewrite lookup_insert_eq. simpl. rewrite insert_insert_eq. eauto.
Qed.

(** X16: a pool one of whose tokens has no quote in the prices object is
    skipped, without raising, whatever its other fields and the other
    quote. *)
Theorem enrich_missing_quote tokenPrices p :
  tokenPrices !! toLowerCase (token_id (token0 p)) = None
  \/ tokenPrices !! toLowerCase (token_id (token1 p)) = None ->
  enrich tokenPrices (EPool p) = Return None.
Proof.
  assert (js_lt (JNumber 0) 1e-6 = true) as Hzero by reflexivity.
  intros [Hmissing | Hmissing]; unfold enrich, price_of; rewrite Hmissing;
    cbn [ToBoolean]; rewrite Hzero; [reflexivity|].
  now rewrite orb_true_r.
Qed.

(** X13: the list step 7 builds has one entry for each pool it was given,
    in the same order: a pool that is reported keeps its place and its own
    fields, a pool that is skipped leaves [null] in its place. *)
Theorem enriched_in_place tokenPrices l r :
  Array_map (enrich tokenPrices) l = Return r ->
  length r = length l
  /\ forall i e, r !! i = Some (Some e) -> l !! i = Some (EPool (base e)).
Proof.
  revert r. induction l as [|x l IH]; intros r; simpl.
  - intros [= <-]. split; [done|]. intros i e Hi. now rewrite lookup_nil in Hi.
  - destruct (enrich tokenPrices x) as [y|?] eqn:Hx; [|done]. simpl.
    destruct (Array_map (enrich tokenPrices) l) as [ys|?]; [|done]. simpl.
    intros [= <-]. destruct (IH ys eq_refl) as [Hlen Hbase].
    split; [simpl; lia|]. intros [|i] e Hi; simpl in *; [|eauto].
    injection Hi as ->. destruct x as [|p]; [done|]. f_equal. f_equal.
    unfold enrich in Hx.
    repeat (case_match; try done); simpl in Hx;
      repeat (match type of Hx with
              | context [?c ≫= _] => destruct c; simpl in Hx; try done
              end);
      now injection Hx as <-.
Qed.

End OrchestratorFacts.

(** X14: evaluating [app.js] raises before the command line is read, in
    every environment and for every argument: first on the loop variable
    of the check, and, were the module sloppy and the check passed, on
    [path.dirname], which [path.join] refuses.  So the program never
    sends a request and never writes a file. *)
Theorem app_js_never_starts
    `{!NumberParser, !MathLib, !StringLib, !JsonCodec, !ReportCodec, !PathLib}
    m dotenv env0 args request get fuel fs :
  exists e, app_js m dotenv env0 args request get fuel fs = Some (Throw e)
  /\ (m = Strict -> e = ReferenceError "env").
Proof.
  unfold app_js. destruct m.
  - eexists. split; [reflexivity|done].
  - destruct (startup_check_in Sloppy (env0 ∪ dotenv)) as [[]|e].
    + eexists. split; [reflexivity|discriminate].
    + eexists. split; [reflexivity|discriminate].
Qed.

Lemma live_run_empties_cache_witness :
  100 <= 100
  /\ @fetchPoolsPricesAndAPR example_parser example_math example_strings
       example_codec example_report "cache.json" "https://prices.example/api"
       one_page no_prices 100 false 100 ∅
     = Some (mkRun (<[ "cache.json" := File "[]" ]> ∅) true [] None).
Proof.
  split; [lia|].
  destruct (@live_run_empties_cache example_parser example_math example_strings
              example_codec example_report "cache.json" "https://prices.example/api"
              one_page no_prices 100 false 100 ∅) as (Hrun & Hfile & _);
    [lia | discriminate |].
  rewrite Hrun, Hfile; reflexivity.
Defined.

Lemma cached_run_does_nothing_witness :
  @loadFromCache example_codec "cache.json" {[ "cache.json" := File one_null_text ]}
  = Return (CArray [ENull])
  /\ @fetchPoolsPricesAndAPR example_parser example_math example_strings
       example_codec example_report "cache.json" "https://prices.example/api"
       one_page no_prices 100 true 100 {[ "cache.json" := File one_null_text ]}
     = Some (mkRun {[ "cache.json" := File one_null_text ]} false []
                   (Some (ReferenceError "isSignificantPool"))).
Proof.
  assert (@loadFromCache example_codec "cache.json"
            {[ "cache.json" := File one_null_text ]}
          = Return (CArray [ENull])) as Hload by (vm_compute; reflexivity).
  split; [exact Hload|].
  apply (@cached_run_does_nothing example_parser example_math example_strings
           example_codec example_report "cache.json" "https://prices.example/api"
           one_page no_prices 100 100 _ ENull [] Hload).
Defined.

Lemma stale_cache_is_not_refreshed_witness :
  @isPoolSignificant example_parser (EPool pool_b) = Return false
  /\ @fetchPoolsPricesAndAPR_in example_parser example_math example_strings
       stale_codec example_report "cache.json" "https://prices.example/api"
       (@aliased_scope example_parser) one_page no_prices 100 true 100
       {[ "cache.json" := File "stale" ]}
     = Some (mkRun {[ "cache.json" := File "stale" ]} false [] None).
Proof.
  split; [reflexivity|].
  apply (@stale_cache_is_not_refreshed example_parser example_math example_strings
           stale_codec example_report "cache.json" "https://prices.example/api"
           (@aliased_scope example_parser) (@isPoolSignificant example_parser)
           one_page no_prices 100 100 _ (EPool pool_b) []).
  - apply aliased_scope_bound.
  - vm_compute. reflexivity.
  - repeat constructor.
Defined.

Lemma failed_prices_fill_cache_with_nulls_witness :
  fetchAllPools_in (@aliased_scope example_parser) one_page 100 100
  = Some (Return [EPool pool_a])
  /\ exists u,
       @fetchPoolsPricesAndAPR_in example_parser example_math example_strings
         example_codec example_report "cache.json" "https://prices.example/api"
         (@aliased_scope example_parser) one_page no_prices 100 false 100 ∅
       = Some (mkRun (<[ "cache.json" := File "[ 1 entries ]" ]> ∅) true [u] None).
Proof.
  assert (fetchAllPools_in (@aliased_scope example_parser) one_page 100 100
          = Some (Return [EPool pool_a])) as Hfetch by (vm_compute; reflexivity).
  split; [exact Hfetch|].
  apply (@failed_prices_fill_cache_with_nulls example_parser example_math
           example_strings example_codec example_report "cache.json"
           "https://prices.example/api" (@aliased_scope example_parser)
           one_page no_prices 100 100 ∅ [EPool pool_a]
           (Error "Request failed with status code 429") Hfetch).
  - discriminate.
  - reflexivity.
  - reflexivity.
Defined.

Lemma enriched_in_place_witness :
  exists r,
    Array_map (@enrich example_parser example_math example_strings both_quotes)
              [EPool pool_a; EPool pool_d]
    = Return r
    /\ length r = 2
    /\ (exists e, r !! 0 = Some (Some e) /\ base e = pool_a)
    /\ r !! 1 = Some None.
Proof.
  destruct (Array_map (@enrich example_parser example_math example_strings both_quotes)
              [EPool pool_a; EPool pool_d]) as [r|e] eqn:Hmap;
    [|vm_compute in Hmap; discriminate Hmap].
  destruct (@enriched_in_place example_parser example_math example_strings
              both_quotes _ _ Hmap) as [Hlen _].
  exists r. split; [reflexivity|]. split; [exact Hlen|].
  vm_compute in Hmap. injection Hmap as <-.
  split; [eexists; split; reflexivity | reflexivity].
Defined.

Lemma enrich_missing_quote_witness :
  both_quotes !! @toLowerCase example_strings (token_id (token1 pool_d)) = None
  /\ @enrich example_parser example_math example_strings both_quotes (EPool pool_d)
     = Return None.
Proof.
  assert (both_quotes !! @toLowerCase example_strings (token_id (token1 pool_d))
          = None) as Hmissing by (vm_compute; reflexivity).
  split; [exact Hmissing|].
  apply (@enrich_missing_quote example_parser example_math example_strings).
  right. exact Hmissing.
Defined.

(** ** What the fetcher keeps *)

Lemma first_by_id_snoc seen l p :
  first_by_id seen (l ++ [EPool p])
  = (first_by_id seen l
     ++ (if bool_decide (id p ∈ seen ∪ list_to_set (entry_ids (first_by_id seen l)))
         then [] else [EPool p]))%list.
Proof.
  revert seen. induction l as [|[|q] l IH]; intros seen; simpl.
  - unfold entry_ids. simpl. rewrite (right_id_L ∅ (∪)).
    now case_bool_decide.
  - apply IH.
  - case_bool_decide as Hq; simpl.
    + apply IH.
    + rewrite IH. unfold entry_ids. simpl. fold (entry_ids (first_by_id ({[id q]} ∪ seen) l)).
      assert ({[id q]} ∪ seen ∪ list_to_set (entry_ids (first_by_id ({[id q]} ∪ seen) l))
              = seen ∪ ({[id q]} ∪ list_to_set (entry_ids (first_by_id ({[id q]} ∪ seen) l))))
        as -> by set_solver.
      reflexivity.
Qed.

Section FirstSeen.
Variable sc : scope.
Variable request : service.
Variable limit : nat.
Variable f : entry -> result bool.
Variable g : pool -> bool.
Hypothesis bound : sc !! "isSignificantPool" = Some f.
Hypothesis total : forall p, f (EPool p) = Return (g p).

Lemma process_page_keeps_first pools st :
  keeps_first g st -> keeps_first g (process_page sc limit pools st).1.
Proof.
  revert st. induction pools as [|[|p] rest IH]; intros st [Hkept Hset]; simpl.
  - done.
  - split; simpl; [|done]. now rewrite List.filter_app, app_nil_r.
  - unfold call_ident. rewrite bound, total.
    set (st1 := if g p && _ then _ else _).
    assert (keeps_first g st1) as Hst1.
    { unfold st1, keeps_first. simpl.
      destruct (g p) eqn:Hg; simpl.
      - case_bool_decide as Hin; simpl.
        + split; [|done]. rewrite List.filter_app. simpl. rewrite Hg.
          rewrite first_by_id_snoc, <- Hkept, <- Hset, (left_id_L ∅ (∪)).
          now rewrite bool_decide_eq_true_2, app_nil_r.
        + split.
          * rewrite List.filter_app. simpl. rewrite Hg.
            rewrite first_by_id_snoc, <- Hkept, <- Hset, (left_id_L ∅ (∪)).
            now rewrite bool_decide_eq_false_2.
          * unfold entry_ids. rewrite omap_app. simpl.
            rewrite list_to_set_app_L. fold (entry_ids (significantPools st)).
            rewrite <- Hset. set_solver.
      - split; [|done]. rewrite List.filter_app. simpl. rewrite Hg.
        now rewrite app_nil_r. }
    case_match; [done|]. now apply IH.
Qed.

Lemma pagination_loop_keeps_first fuel st st' outcome :
  keeps_first g st ->
  pagination_loop sc request limit fuel st = Some (st', outcome) ->
  keeps_first g st'.
Proof.
  revert st. induction fuel as [|fuel IH]; intros st Hst; simpl.
  - case_match; [done|]. now intros [= <- <-].
  - case_match; [|now intros [= <- <-]].
    destruct (request (requests st) _) as [e|[pools|]];
      [now intros [= <- <-]| |now intros [= <- <-]].
    pose proof (process_page_keeps_first pools (sent st) Hst) as Hpage.
    destruct (process_page sc limit pools (sent st)) as [st1 [[]|e]];
      [|now intros [= <- <-]].
    apply IH. now case_match.
Qed.

End FirstSeen.

(** X15: in a scope that binds the filter to a function that returns on
    every pool, what [fetchAllPools] has kept when its loop ends, however
    it ends, is the entries fetched that pass the filter, in the order
    fetched, each identifier at its first passing occurrence only. *)
Theorem fetchAllPools_keeps_first_seen sc request limit f g fuel st outcome :
  sc !! "isSignificantPool" = Some f ->
  (forall p, f (EPool p) = Return (g p)) ->
  pagination_loop sc request limit fuel fetch_init = Some (st, outcome) ->
  significantPools st = first_by_id ∅ (List.filter (passes g) (allPools st))
  /\ fetchAllPools_in sc request limit fuel
     = Some (Return (first_by_id ∅ (List.filter (passes g) (allPools st)))).
Proof.
  intros Hsc Hf Hrun.
  destruct (pagination_loop_keeps_first sc request limit f g Hsc Hf
              fuel fetch_init st outcome) as [Hkept _]; [done|done|].
  split; [done|]. unfold fetchAllPools_in. rewrite Hrun, <- Hkept.
  now destruct outcome.
Qed.

Lemma fetchAllPools_keeps_first_seen_witness :
  exists st outcome,
    pagination_loop (@aliased_scope example_parser) two_pages 100 5 fetch_init
    = Some (st, outcome)
    /\ length (allPools st) = 51
    /\ first_by_id ∅ (List.filter (passes (@significant_spec example_parser))
                                  (allPools st))
       = [EPool pool_a]
    /\ fetchAllPools_in (@aliased_scope example_parser) two_pages 100 5
       = Some (Return (first_by_id ∅
                 (List.filter (passes (@significant_spec example_parser))
                              (allPools st)))).
Proof.
  eexists _, _. split; [vm_compute; reflexivity|].
  split; [reflexivity|]. split; [vm_compute; reflexivity|].
  eapply (fetchAllPools_keeps_first_seen (@aliased_scope example_parser) two_pages
            100 (@isPoolSignificant example_parser)
            (@significant_spec example_parser) 5).
  - apply aliased_scope_bound.
  - apply isPoolSignificant_refines.
  - vm_compute. reflexivity.
Defined.
